(** * MODIS land-surface-temperature download script: model and properties

    The script [demo_dn_modis_lst.js] describes a computation to a hosted
    raster-analysis platform: every value it handles ([ee.Number],
    [ee.Image], [ee.ImageCollection], [ee.Date]) is a handle on which the
    script calls the platform's methods.  The functions of the script are
    embedded below as Rocq functions over a reference semantics of the
    methods they call (modules [Number], [Image], [Date] and
    [ImageCollection]); the semantics follows the platform's reference for
    each method.

    Conventions of the model:
    - integers are mathematical integers ([Z]); the platform's fixed-width
      pixel types never overflow on the 8- and 16-bit bands handled here;
    - double-precision values are the kernel's binary64 floats, so band
      arithmetic is bit-exact; single precision is obtained by rounding;
    - a masked pixel is [None], a valid one is [Some v];
    - a method call the platform rejects (unknown band, bit operation on a
      non-integer) is [None] in the option monad.

    The calls themselves, as JavaScript that runs in the script's variables
    and can throw, are in module [Js]; there a handle is the answer that the
    platform will give, and the functions of the script are shown to return
    the handles of what the reference semantics computes. *)

From Stdlib Require Import ZArith Lia List Bool Ascii Floats.
From stdpp Require Import base option strings gmap list pretty.

#[local] Set Warnings "-inexact-float".
#[local] Open Scope Z_scope.

(** ** Numbers *)

Module Number.

(** An [ee.Number] is an integer or a double. *)
Inductive t : Type :=
| Int (n : Z)
| Dbl (x : float).

(** Conversion of an integer to the nearest double. *)
Definition of_Z (z : Z) : float :=
  SF2Prim (SpecFloat.binary_normalize prec emax z 0 false).

Definition to_float (a : t) : float :=
  match a with
  | Int n => of_Z n
  | Dbl x => x
  end.

(** Arithmetic stays in the integers when both operands are integers and
    is carried out in double precision otherwise. *)
Definition arith (opZ : Z → Z → Z) (opF : float → float → float) (a b : t) : t :=
  match a, b with
  | Int x, Int y => Int (opZ x y)
  | _, _ => Dbl (opF (to_float a) (to_float b))
  end.

Definition add : t → t → t := arith Z.add PrimFloat.add.
Definition subtract : t → t → t := arith Z.sub PrimFloat.sub.
Definition multiply : t → t → t := arith Z.mul PrimFloat.mul.

(** Bit operations are defined on integers only. *)
Definition bitop (opZ : Z → Z → Z) (a b : t) : option t :=
  match a, b with
  | Int x, Int y => Some (Int (opZ x y))
  | _, _ => None
  end.

Definition leftShift : t → t → option t := bitop Z.shiftl.
Definition rightShift : t → t → option t := bitop Z.shiftr.
Definition bitwiseAnd : t → t → option t := bitop Z.land.

(** Comparisons answer 1 or 0. *)
Definition of_bool (b : bool) : t := Int (Z.b2z b).

Definition test (cmpZ : Z → Z → bool) (cmpF : float → float → bool) (a b : t) : bool :=
  match a, b with
  | Int x, Int y => cmpZ x y
  | _, _ => cmpF (to_float a) (to_float b)
  end.

Definition lteb : t → t → bool := test Z.leb PrimFloat.leb.
Definition ltb : t → t → bool := test Z.ltb PrimFloat.ltb.
Definition eqb : t → t → bool := test Z.eqb PrimFloat.eqb.

Definition lte (a b : t) : t := of_bool (lteb a b).
Definition eq (a b : t) : t := of_bool (eqb a b).

(** Truth value of a number: non-zero. *)
Definition nonzero (a : t) : bool := negb (eqb a (Int 0)).

Definition and (a b : t) : t := of_bool (nonzero a && nonzero b).

End Number.

Abbreviation Int := Number.Int.
Abbreviation Dbl := Number.Dbl.

(** ** Operands of the bit-field helper

    [bitwiseExtract] is written once for the two kinds of handle that offer
    [rightShift] and [bitwiseAnd]: numbers and images. *)

Class BitOperand (A : Type) : Type := {
  rightShift : A → Number.t → option A;
  bitwiseAnd : A → Number.t → option A
}.

#[export] Instance Number_BitOperand : BitOperand Number.t := {
  rightShift := Number.rightShift;
  bitwiseAnd := Number.bitwiseAnd
}.

(** ** The bit-field helper (source lines 28-32) *)

Definition bitwiseExtract {A : Type} `{BitOperand A}
    (input : A) (fromBit toBit : Number.t) : option A :=
  let maskSize := Number.subtract (Number.add (Int 1) toBit) fromBit in
  mask ← (λ m, Number.subtract m (Int 1)) <$> Number.leftShift (Int 1) maskSize;
  shifted ← rightShift input fromBit;
  bitwiseAnd shifted mask.

(** The formula as the specification words it. *)
Definition extract_formula (value fromBit toBit : Z) : Z :=
  Z.land (Z.shiftr value fromBit) (Z.shiftl 1 (toBit - fromBit + 1) - 1).

(** The field made of bits [fromBit..toBit], read as an unsigned integer. *)
Definition bit_field (value fromBit toBit : Z) : Z :=
  (value / 2 ^ fromBit) mod 2 ^ (toBit - fromBit + 1).

(** ** Images *)

Module Image.

(** A pixel is addressed by its grid coordinates. *)
Definition Pixel : Type := (Z * Z)%type.

(** A band has one pixel type; a masked pixel carries no value. *)
Inductive BandData : Type :=
| IntBand (f : Pixel → option Z)
| DblBand (f : Pixel → option float).

Definition sample (d : BandData) (p : Pixel) : option Number.t :=
  match d with
  | IntBand f => Int <$> f p
  | DblBand f => Dbl <$> f p
  end.

Definition same_kind (d d' : BandData) : bool :=
  match d, d' with
  | IntBand _, IntBand _ | DblBand _, DblBand _ => true
  | _, _ => false
  end.

Definition Band : Type := (string * BandData)%type.

Inductive PropValue : Type :=
| PNumber (n : Number.t)
| PString (s : string).

(** An image: its bands in order, and its metadata dictionary. *)
Record t : Type := mk {
  bands : list Band;
  properties : gmap string PropValue
}.

Definition bandNames (img : t) : list string := (bands img).*1.

(** Images all of whose bands are integer bands. *)
Definition integer_band (b : Band) : Prop := ∃ f, b.2 = IntBand f.
Definition integer_bands (img : t) : Prop := Forall integer_band (bands img).

Fixpoint find_band (name : string) (bs : list Band) : option BandData :=
  match bs with
  | [] => None
  | (n, d) :: rest => if decide (n = name) then Some d else find_band name rest
  end.

(** Value of band [name] at pixel [p]: [None] when the image has no such
    band, [Some None] when the pixel is masked. *)
Definition value_at (img : t) (name : string) (p : Pixel) : option (option Number.t) :=
  (λ d, sample d p) <$> find_band name (bands img).

(** [ee.Image(number)]: a one-band constant image, valid everywhere. *)
Definition constant (c : Number.t) : t :=
  mk [("constant",
       match c with
       | Int n => IntBand (λ _, Some n)
       | Dbl x => DblBand (λ _, Some x)
       end)] ∅.

(** [image.select(names)]: the named bands, in the order asked; the
    metadata is kept.  Asking for a band the image lacks is an error. *)
Definition select (img : t) (names : list string) : option t :=
  bs ← mapM (λ n, (λ d, (n, d)) <$> find_band n (bands img)) names;
  Some (mk bs (properties img)).

(** Per-pixel operations with a constant operand.  The results of
    per-pixel operations carry no metadata. *)
Definition band_arith (opZ : Z → Z → Z) (opF : float → float → float)
    (c : Number.t) (d : BandData) : BandData :=
  match d, c with
  | IntBand f, Int y => IntBand (λ p, (λ x, opZ x y) <$> f p)
  | IntBand f, Dbl y => DblBand (λ p, (λ x, opF (Number.of_Z x) y) <$> f p)
  | DblBand f, _ => DblBand (λ p, (λ x, opF x (Number.to_float c)) <$> f p)
  end.

Definition band_bitop (opZ : Z → Z → Z) (c : Number.t) (d : BandData) : option BandData :=
  match d, c with
  | IntBand f, Int y => Some (IntBand (λ p, (λ x, opZ x y) <$> f p))
  | _, _ => None
  end.

Definition band_test (cmp : Number.t → Number.t → bool) (c : Number.t) (d : BandData) : BandData :=
  IntBand (λ p, (λ v, Z.b2z (cmp v c)) <$> sample d p).

Definition map_bands (g : BandData → BandData) (img : t) : t :=
  mk (prod_map id g <$> bands img) ∅.

Definition map_bandsM (g : BandData → option BandData) (img : t) : option t :=
  bs ← mapM (λ b : Band, (λ d, (b.1, d)) <$> g b.2) (bands img);
  Some (mk bs ∅).

Definition multiply (img : t) (c : Number.t) : t := map_bands (band_arith Z.mul PrimFloat.mul c) img.
Definition add (img : t) (c : Number.t) : t := map_bands (band_arith Z.add PrimFloat.add c) img.
Definition lte (img : t) (c : Number.t) : t := map_bands (band_test Number.lteb c) img.
Definition eq (img : t) (c : Number.t) : t := map_bands (band_test Number.eqb c) img.
Definition rightShift (img : t) (c : Number.t) : option t := map_bandsM (band_bitop Z.shiftr c) img.
Definition bitwiseAnd (img : t) (c : Number.t) : option t := map_bandsM (band_bitop Z.land c) img.

(** Per-pixel operations between two images.  A one-band image is used
    against every band of the other; images with the same number of bands
    are used pairwise, in order; the result is named after the longer
    image, or after the first.  A pixel masked in either operand is masked
    in the result. *)
Definition match_bands (op : BandData → BandData → BandData) (a b : list Band) : option (list Band) :=
  match a, b with
  | _, [(_, y)] => Some ((λ x : Band, (x.1, op x.2 y)) <$> a)
  | [(_, x)], _ => Some ((λ y : Band, (y.1, op x y.2)) <$> b)
  | _, _ =>
      if decide (length a = length b)
      then Some (zip_with (λ (x y : Band), (x.1, op x.2 y.2)) a b)
      else None
  end.

Definition band_and (x y : BandData) : BandData :=
  IntBand (λ p,
    match sample x p, sample y p with
    | Some u, Some v => Some (Z.b2z (Number.nonzero u && Number.nonzero v))
    | _, _ => None
    end).

Definition and (a b : t) : option t :=
  bs ← match_bands band_and (bands a) (bands b);
  Some (mk bs ∅).

(** [image.rename(names)]: as many names as bands. *)
Definition rename (img : t) (names : list string) : option t :=
  if decide (length names = length (bands img))
  then Some (mk (zip names (bands img).*2) (properties img))
  else None.

(** [image.updateMask(mask)]: a pixel stays valid where it was valid and
    the mask is valid and non-zero.  A one-band mask applies to every band;
    otherwise the mask has one band per band of the image.  The metadata is
    kept. *)
Definition mask_band (d m : BandData) : BandData :=
  let keep p := from_option Number.nonzero false (sample m p) in
  match d with
  | IntBand f => IntBand (λ p, if keep p then f p else None)
  | DblBand f => DblBand (λ p, if keep p then f p else None)
  end.

Definition updateMask (img mask : t) : option t :=
  match bands mask with
  | [(_, m)] => Some (mk ((λ x : Band, (x.1, mask_band x.2 m)) <$> bands img) (properties img))
  | ms =>
      if decide (length ms = length (bands img))
      then Some (mk (zip_with (λ (x m : Band), (x.1, mask_band x.2 m.2)) (bands img) ms)
                    (properties img))
      else None
  end.

(** [image.addBands(src, null, overwrite)]: every band of [src] is added
    to the image.  A band whose name is taken replaces the band of that
    name when [overwrite] is set, and is otherwise added under the first
    free name among [name_1], [name_2], ...  The metadata is the
    image's. *)
Fixpoint fresh_name (fuel : nat) (base : string) (k : nat) (used : list string) : string :=
  let candidate := base +:+ "_" +:+ pretty k in
  match fuel with
  | O => candidate
  | S fuel' =>
      if decide (candidate ∈ used)
      then fresh_name fuel' base (S k) used
      else candidate
  end.

Definition add_band (overwrite : bool) (bs : list Band) (b : Band) : list Band :=
  if decide (b.1 ∈ bs.*1) then
    if overwrite
    then (λ x : Band, if decide (x.1 = b.1) then b else x) <$> bs
    else bs ++ [(fresh_name (length bs) b.1 1 bs.*1, b.2)]
  else bs ++ [b].

Definition addBands (dst src : t) (overwrite : bool) : t :=
  mk (foldl (add_band overwrite) (bands dst) (bands src)) (properties dst).

(** [image.getNumber(key)] and [image.set(key, value)]. *)
Definition getNumber (img : t) (key : string) : option Number.t :=
  match properties img !! key with
  | Some (PNumber n) => Some n
  | _ => None
  end.

Definition set (img : t) (key : string) (v : PropValue) : t :=
  mk (bands img) (<[key := v]> (properties img)).

(** [image.toFloat()]: every band cast to single precision.  The value is
    kept as the double that the single-precision number is. *)
Definition round32 (x : float) : float :=
  match Prim2SF x with
  | S754_finite s m e =>
      SF2Prim
        match SpecFloat.binary_normalize 24 128 (if s then Z.neg m else Z.pos m) e s with
        | S754_finite s' m' e' =>
            SpecFloat.binary_normalize prec emax (if s' then Z.neg m' else Z.pos m') e' s'
        | r => r
        end
  | _ => x
  end.

Definition band_toFloat (d : BandData) : BandData :=
  DblBand (λ p, (λ v, round32 (Number.to_float v)) <$> sample d p).

Definition toFloat (img : t) : t :=
  mk (prod_map id band_toFloat <$> bands img) (properties img).

End Image.

#[export] Instance Image_BitOperand : BitOperand Image.t := {
  rightShift := Image.rightShift;
  bitwiseAnd := Image.bitwiseAnd
}.

(** ** The per-image transforms (source lines 34-63) *)

(** Scale MODIS LST to Celsius. *)
Definition scaleModisLst (image : Image.t) : option Image.t :=
  thermalBands ←
    (λ b, Image.add (Image.multiply b (Dbl 0.02)) (Dbl (-273.15)))
      <$> Image.select image ["LST_Day_1km"];
  Some (Image.addBands image thermalBands true).

(** Mask from the quality-control band. *)
Definition maskModisLst (image : Image.t) : option Image.t :=
  qcDay ← Image.select image ["QC_Day"];
  qaMask ← (λ b, Image.lte b (Int 1)) <$> bitwiseExtract qcDay (Int 0) (Int 1);
  dataQualityMask ← (λ b, Image.eq b (Int 0)) <$> bitwiseExtract qcDay (Int 2) (Int 3);
  lstErrorMask ← (λ b, Image.lte b (Int 1)) <$> bitwiseExtract qcDay (Int 6) (Int 7);
  qaMask ← Image.and qaMask dataQualityMask;
  qaMask ← Image.and qaMask lstErrorMask;
  qaMask ← Image.rename qaMask ["qaMask"];
  Image.updateMask (Image.addBands image qaMask false) qaMask.

(** Add the acquisition time as a band. *)
Definition addVariablesTime (image : Image.t) : option Image.t :=
  time_start ← Image.getNumber image "system:time_start";
  millis ← Image.toFloat <$> Image.rename (Image.constant time_start) ["millis"];
  Some (Image.addBands image millis false).

(** ** Dates *)

Module Date.

(** An [ee.Date] is an instant: milliseconds since the Unix epoch, UTC. *)
Definition t : Type := Z.

Definition ms_per_day : Z := 86400000.

(** Days since 1970-01-01 of a calendar date, and back (proleptic
    Gregorian calendar). *)
Definition days_from_civil (y m d : Z) : Z :=
  let y' := if m <=? 2 then y - 1 else y in
  let era := y' / 400 in
  let yoe := y' - era * 400 in
  let mp := (m + 9) mod 12 in
  let doy := (153 * mp + 2) / 5 + d - 1 in
  let doe := yoe * 365 + yoe / 4 - yoe / 100 + doy in
  era * 146097 + doe - 719468.

Definition civil_from_days (z : Z) : Z * Z * Z :=
  let z' := z + 719468 in
  let era := z' / 146097 in
  let doe := z' - era * 146097 in
  let yoe := (doe - doe / 1460 + doe / 36524 - doe / 146096) / 365 in
  let doy := doe - (365 * yoe + yoe / 4 - yoe / 100) in
  let mp := (5 * doy + 2) / 153 in
  let d := doy - (153 * mp + 2) / 5 + 1 in
  let m := if mp <? 10 then mp + 3 else mp - 9 in
  let y := yoe + era * 400 in
  (if m <=? 2 then y + 1 else y, m, d).

Definition is_leap (y : Z) : bool :=
  (y mod 4 =? 0) && (negb (y mod 100 =? 0) || (y mod 400 =? 0)).

Definition days_in_month (y m : Z) : Z :=
  if m =? 2 then (if is_leap y then 29 else 28)
  else if (m =? 4) || (m =? 6) || (m =? 9) || (m =? 11) then 30
  else 31.

(** [ee.Date.fromYMD(year, month, day)]: midnight UTC of that day. *)
Definition fromYMD (y m d : Z) : t := days_from_civil y m d * ms_per_day.

Definition millis (d : t) : Z := d.

Inductive unit : Type := Year | Month | Week | Day | Hour | Minute | Second.

(** Calendar units move the month and keep the day of the month, clamped
    to the length of the month reached; the other units are fixed spans. *)
Definition advance_months (d : t) (n : Z) : t :=
  let '(y, m, dd) := civil_from_days (d / ms_per_day) in
  let k := y * 12 + (m - 1) + n in
  let y' := k / 12 in
  let m' := k mod 12 + 1 in
  days_from_civil y' m' (Z.min dd (days_in_month y' m')) * ms_per_day
    + d mod ms_per_day.

Definition advance (d : t) (delta : Z) (u : unit) : t :=
  match u with
  | Year => advance_months d (12 * delta)
  | Month => advance_months d delta
  | Week => d + delta * 7 * ms_per_day
  | Day => d + delta * ms_per_day
  | Hour => d + delta * 3600000
  | Minute => d + delta * 60000
  | Second => d + delta * 1000
  end.

(** Dates written as text, [YYYY-MM-DD]. *)
Definition digit (c : Ascii.ascii) : option Z :=
  let n := Z.of_N (Ascii.N_of_ascii c) in
  if (48 <=? n) && (n <=? 57) then Some (n - 48) else None.

Fixpoint number (acc : Z) (s : string) : option Z :=
  match s with
  | EmptyString => Some acc
  | String c rest => d ← digit c; number (acc * 10 + d) rest
  end.

Definition parse (s : string) : option t :=
  if decide (String.length s = 10%nat ∧ String.get 4 s = Some "-"%char ∧ String.get 7 s = Some "-"%char)
  then
    y ← number 0 (String.substring 0 4 s);
    m ← number 0 (String.substring 5 2 s);
    d ← number 0 (String.substring 8 2 s);
    Some (fromYMD y m d)
  else None.

End Date.

(** ** Vector data

    Feature collections, features and geometries are handles the script
    only passes on; they are kept as the description the script builds. *)

Inductive Vector : Type :=
| FeatureCollection (id : string)
| First (collection : Vector)
| Feature (v : Vector)
| Buffer (v : Vector) (distance : Z)
| Bounds (v : Vector).

(** ** What the platform holds

    The catalogue of image collections, the test behind [filterBounds] and
    the median of a list of samples belong to the platform. *)

Class Platform : Type := {
  catalog : string → list Image.t;
  intersects : Image.t → Vector → bool;
  median_of : list float → float
}.

(** ** Image collections *)

Module ImageCollection.

Definition t : Type := list Image.t.

(** [collection.map(f)]: [f] applied to every image, in order. *)
Definition map (f : Image.t → option Image.t) (c : t) : option t := mapM f c.

Definition filterBounds `{Platform} (c : t) (region : Vector) : t :=
  filter (λ img, intersects img region = true) c.

Definition time_start (img : Image.t) : option Z :=
  match Image.getNumber img "system:time_start" with
  | Some (Int n) => Some n
  | _ => None
  end.

(** [collection.filterDate(start, end)]: the images acquired in
    [start, end), the end excluded. *)
Definition in_range (start stop : Date.t) (img : Image.t) : bool :=
  match time_start img with
  | Some ts => (Date.millis start <=? ts) && (ts <? Date.millis stop)
  | None => false
  end.

Definition filterDate (c : t) (start stop : Date.t) : t :=
  filter (λ img, in_range start stop img = true) c.

Definition select (c : t) (names : list string) : option t :=
  mapM (λ img, Image.select img names) c.

(** Samples of band [name] at pixel [p] over the collection: the valid
    ones, in order. *)
Definition samples (c : t) (name : string) (p : Image.Pixel) : list Number.t :=
  omap (λ img, mjoin (Image.value_at img name p)) c.

(** [collection.median()]: per band and per pixel, the median of the
    valid samples; masked where there is none.  The bands are those of the
    first image and keep their names; the result has no metadata. *)
Definition median `{Platform} (c : t) : Image.t :=
  Image.mk
    ((λ name,
        (name,
         Image.DblBand (λ p,
           match samples c name p with
           | [] => None
           | vs => Some (median_of (Number.to_float <$> vs))
           end)))
       <$> from_option Image.bandNames [] (head c))
    ∅.

(** [collection.qualityMosaic(band)]: at every pixel, the observation with
    the greatest value of the quality band.  An image offers an
    observation at a pixel where all its bands are valid.  The bands are
    those of the first image; the result has no metadata. *)
Definition observed (p : Image.Pixel) (img : Image.t) : bool :=
  forallb (λ b : Image.Band, bool_decide (is_Some (Image.sample b.2 p))) (Image.bands img).

Definition quality (band : string) (p : Image.Pixel) (img : Image.t) : option Number.t :=
  mjoin (Image.value_at img band p).

Definition better (band : string) (p : Image.Pixel) (best img : Image.t) : bool :=
  match quality band p best, quality band p img with
  | Some a, Some b => Number.ltb a b
  | _, _ => false
  end.

Definition choose (band : string) (p : Image.Pixel) (best : option Image.t) (img : Image.t)
    : option Image.t :=
  match best with
  | None => Some img
  | Some b => if better band p b img then Some img else Some b
  end.

Definition pick (band : string) (p : Image.Pixel) (c : t) : option Image.t :=
  foldl (choose band p) None
    (filter (λ img, observed p img = true ∧ is_Some (quality band p img)) c).

(** The quality band tells two images apart in the order of their time
    stamps. *)
Definition keeps_order (band : string) (p : Image.Pixel) (x y : Image.t) : bool :=
  match time_start x, time_start y with
  | Some tx, Some ty => implb (tx <? ty) (better band p x y)
  | _, _ => true
  end.

(** The quality of an image at a pixel is a double. *)
Definition real_quality (band : string) (p : Image.Pixel) (img : Image.t) : Prop :=
  ∃ x, quality band p img = Some (Dbl x).

Definition mosaic_band (band : string) (c : t) (name : string) (like : Image.BandData)
    : Image.BandData :=
  match like with
  | Image.IntBand _ =>
      Image.IntBand (λ p,
        match pick band p c ≫= (λ img, Image.find_band name (Image.bands img)) with
        | Some (Image.IntBand f) => f p
        | _ => None
        end)
  | Image.DblBand _ =>
      Image.DblBand (λ p,
        match pick band p c ≫= (λ img, Image.find_band name (Image.bands img)) with
        | Some (Image.DblBand f) => f p
        | _ => None
        end)
  end.

Definition qualityMosaic (c : t) (band : string) : Image.t :=
  Image.mk
    ((λ b : Image.Band, (b.1, mosaic_band band c b.1 b.2))
       <$> from_option Image.bands [] (head c))
    ∅.

(** [ee.ImageCollection.fromImages(list)]: the images are indexed by
    their position. *)
Definition fromImages (l : list Image.t) : t :=
  imap (λ i img, Image.set img "system:index" (Image.PString (pretty i))) l.

(** [collection.toBands()]: one image with every band of every image,
    each named after the index of its image. *)
Definition index (img : Image.t) : string :=
  match Image.properties img !! "system:index" with
  | Some (Image.PString s) => s
  | _ => ""
  end.

Definition toBands (c : t) : Image.t :=
  Image.mk
    (c ≫= (λ img, (λ b : Image.Band, (index img +:+ "_" +:+ b.1, b.2)) <$> Image.bands img))
    ∅.

End ImageCollection.

(** [ee.List.sequence(start, end, step)], for a positive step. *)
Definition sequence (start stop step : Z) : list Z :=
  (λ i : nat, start + Z.of_nat i * step)
    <$> seq 0 (Z.to_nat ((stop - start) / step + 1)).

(** ** The script

    The script runs top to bottom.  It assigns [modisLST] several times; the
    successive values are [modisLST_dataset] (line 13), [modisLST] (line 66)
    and [modisLST_v2] (line 184).  What it asks of the platform is the list
    [script] of requests, in order. *)

Inductive Layer : Type :=
| VectorLayer (v : Vector)
| ImageLayer (img : option Image.t).

Record VisParams : Type := {
  vis_bands : option string;
  vis_min : option Z;
  vis_max : option Z;
  vis_palette : list string
}.

Inductive Arg : Type :=
| ArgImage (img : option Image.t)
| ArgString (s : string)
| ArgNumber (n : Z)
| ArgRegion (v : Vector).

(** Charts and console listings are recorded by their title: the plotting
    part of the script (lines 83-147) and the listings are for display
    only. *)
Inductive Request : Type :=
| MapAddLayer (what : Layer) (vis : VisParams) (name : string)
| MapCenterObject (v : Vector)
| Print (what : string)
| ExportImageToDrive (params : gmap string Arg).

Section Script.

Context `{Platform}.

Definition modisLST_dataset : ImageCollection.t := catalog "MODIS/061/MOD11A2".

Definition roi : Vector := FeatureCollection "users/QiuYuean/City_of_Detroit_Boundary".

Definition start_date : string := "2018-04-01".
Definition end_date : string := "2021-09-30".

(** Lines 66-70: the collection, scaled, masked and time-stamped. *)
Definition modisLST : option ImageCollection.t :=
  start ← Date.parse start_date;
  stop ← Date.parse end_date;
  scaled ← ImageCollection.map scaleModisLst
    (ImageCollection.filterDate (ImageCollection.filterBounds modisLST_dataset roi) start stop);
  masked ← ImageCollection.map maskModisLst scaled;
  ImageCollection.map addVariablesTime masked.

Definition no_vis : VisParams :=
  {| vis_bands := None; vis_min := None; vis_max := None; vis_palette := [] |}.

Definition visParams : VisParams :=
  {| vis_bands := Some "LST_Day_1km"; vis_min := Some 0; vis_max := Some 40;
     vis_palette := ["white"; "yellow"; "red"] |}.

(** Lines 79-81: a cloud-free, most recent value composite. *)
Definition recentValueComposite : option Image.t :=
  (λ c, ImageCollection.qualityMosaic c "millis") <$> modisLST.

(** Lines 152-163: export settings. *)
Definition folder : string := "GEO874_2023FA".
Definition roi_detroit : Vector := Feature (First roi).
Definition roi_buffer : Vector := Bounds (Buffer roi_detroit 10000).
Definition crs : string := "EPSG:4326".

(** Lines 179-200: monthly composites. *)
Definition year : Z := 2018.
Definition n_year : Z := 4.

Definition modisLST_v2 : option ImageCollection.t :=
  scaled ← ImageCollection.map scaleModisLst
    (ImageCollection.filterDate (ImageCollection.filterBounds (catalog "MODIS/061/MOD11A2") roi)
       (Date.fromYMD year 1 1) (Date.fromYMD (year + n_year) 1 1));
  masked ← ImageCollection.map maskModisLst scaled;
  ImageCollection.select masked ["LST_Day_1km"].

(** The function mapped over the month numbers (lines 190-195), with its
    two dates.  Its results are images, so flattening the list leaves it as
    it is. *)
Definition month_start (n : Z) : Date.t :=
  Date.advance (Date.fromYMD year 1 1) n Date.Month.

Definition month_end (n : Z) : Date.t :=
  Date.advance (month_start n) 1 Date.Month.

Definition month_median (collection : ImageCollection.t) (n : Z) : Image.t :=
  let start := month_start n in
  let stop := month_end n in
  let tmpMedian :=
    Image.set (ImageCollection.median (ImageCollection.filterDate collection start stop))
      "system:time_start" (Image.PNumber (Int (Date.millis start))) in
  tmpMedian.

Definition modisLST_month : option ImageCollection.t :=
  collection ← modisLST_v2;
  Some (ImageCollection.fromImages
          (month_median collection <$> sequence 0 (n_year * 12 - 1) 1)).

Definition monthlyLST_month_bands : option Image.t :=
  ImageCollection.toBands <$> modisLST_month.

(** Lines 202-211: the export request.  The request of lines 166-175 is
    commented out and is never issued. *)
Definition export_monthly : gmap string Arg :=
  list_to_map
    [("image", ArgImage monthlyLST_month_bands);
     ("folder", ArgString folder);
     ("description", ArgString "MOD11A2_detroit_monthly_median");
     ("fileNamePrefix", ArgString "mod11a2_detroit_monthly_median");
     ("fileFormat", ArgString "GeoTIFF");
     ("region", ArgRegion roi_buffer);
     ("scale", ArgNumber 1000);
     ("crs", ArgString crs)].

Definition script : list Request :=
  [ MapAddLayer (VectorLayer roi) no_vis "ROI";
    MapCenterObject roi;
    MapAddLayer (ImageLayer recentValueComposite) visParams "recentValueComposite";
    Print "MOD11A2 LST Time Series (median over the ROI)";
    Print "MCD43A4 NDVI Time Series (median over the ROI)";
    MapAddLayer (VectorLayer roi) no_vis "ROI";
    Print "modisToBands";
    MapAddLayer (VectorLayer roi_buffer) no_vis "roi_buffer";
    Print "modisLST_month";
    Print "monthlyLST_month_bands";
    ExportImageToDrive export_monthly ].

Definition exports : list (gmap string Arg) :=
  omap (λ r, match r with ExportImageToDrive params => Some params | _ => None end) script.

End Script.

(** ** The specification's wording of the transforms *)

(** Raw digital number to degrees Celsius. *)
Definition celsius (x : Number.t) : Number.t :=
  Dbl (Number.to_float x * 0.02 - 273.15)%float.

(** The three quality conditions on a [QC_Day] value: mandatory QA flag
    (bits 0-1) at most 1, data quality flag (bits 2-3) equal to 0, LST error
    flag (bits 6-7) at most 1. *)
Definition qa_keep (qc : Z) : bool :=
  (bit_field qc 0 1 <=? 1) && (bit_field qc 2 3 =? 0) && (bit_field qc 6 7 <=? 1).

(** The band that [bitwiseExtract] makes of an integer band [q], and the
    mask band that [maskModisLst] combines from the three fields. *)
Definition field_band (q : Image.Pixel → option Z) (fromBit toBit : Z) : Image.BandData :=
  Image.IntBand (λ p,
    (λ x, Z.land x (Z.shiftl 1 (1 + toBit - fromBit) - 1))
      <$> ((λ x, Z.shiftr x fromBit) <$> q p)).

Definition quality_mask (q : Image.Pixel → option Z) : Image.BandData :=
  Image.band_and
    (Image.band_and
       (Image.band_test Number.lteb (Int 1) (field_band q 0 1))
       (Image.band_test Number.eqb (Int 0) (field_band q 2 3)))
    (Image.band_test Number.lteb (Int 1) (field_band q 6 7)).

(** The time band that [addVariablesTime] makes of a time stamp. *)
Definition millis_band (time_start : Number.t) : Image.BandData :=
  Image.band_toFloat
    match time_start with
    | Int n => Image.IntBand (λ _, Some n)
    | Dbl x => Image.DblBand (λ _, Some x)
    end.

(** The three transforms mapped over the collection. *)
Definition transforms : list (Image.t → option Image.t) :=
  [scaleModisLst; maskModisLst; addVariablesTime].

(** ** A small catalogue, for examples

    Three 8-day granules of April 2018, each with a temperature band, a
    quality band and an emissivity band over a grid on which the quality
    value of a pixel is its column number (first granule), 2 (second
    granule: not produced) or 0. *)

Definition granule (time_start : Z) (lst qc : Image.Pixel → option Z) : Image.t :=
  Image.mk
    [("LST_Day_1km", Image.IntBand lst);
     ("QC_Day", Image.IntBand qc);
     ("Emis_31", Image.IntBand (λ _, Some 245))]
    {[ "system:time_start" := Image.PNumber (Int time_start) ]}.

Definition granule_apr07 : Image.t :=
  granule 1523059200000 (λ p, Some (15000 + p.1)) (λ p, Some p.2).
Definition granule_apr15 : Image.t :=
  granule 1523750400000 (λ p, if decide (p.1 = 0) then Some 14900 else None) (λ _, Some 2).
Definition granule_apr23 : Image.t :=
  granule 1524441600000 (λ _, Some 15100) (λ p, if decide (p.1 = 3) then Some 129 else Some 0).

Fixpoint insert_sorted (x : float) (l : list float) : list float :=
  match l with
  | [] => [x]
  | y :: rest => if PrimFloat.leb x y then x :: l else y :: insert_sorted x rest
  end.

Definition sample_platform : Platform := {|
  catalog := λ id,
    if decide (id = "MODIS/061/MOD11A2")
    then [granule_apr07; granule_apr15; granule_apr23]
    else [];
  intersects := λ _ _, true;
  median_of := λ l,
    let sorted := foldr insert_sorted [] l in
    nth (length sorted / 2) sorted 0%float
|}.

(** The example catalogue after scaling and masking, then with the time
    band. *)
Definition sample_masked : list Image.t :=
  default []
    (ImageCollection.map scaleModisLst [granule_apr07; granule_apr15; granule_apr23]
       ≫= ImageCollection.map maskModisLst).

Definition sample_stamped : list Image.t :=
  default [] (ImageCollection.map addVariablesTime sample_masked).

(** The calendar facts to check month by month: the month starts on the
    first day of its calendar month, ends where the next one starts, and is
    not empty. *)
Definition month_ok (n : Z) : bool :=
  (month_start n =? Date.fromYMD (2018 + n / 12) (n mod 12 + 1) 1)
  && (month_end n =? month_start (n + 1))
  && (month_start n <? month_end n).

(** ** The plotting variables (source lines 85-99)

    [addVariables] adds the time in fractional years and a constant band.
    The platform's [date.difference(start, unit)] is a parameter. *)

Section Plot.

Variable difference : Date.t → Date.t → Date.unit → float.

Definition addVariables (image : Image.t) : option Image.t :=
  date ← ImageCollection.time_start image;
  epoch ← Date.parse "1970-01-01";
  let years := difference date epoch Date.Year in
  t ← Image.rename (Image.constant (Dbl years)) ["t"];
  Some (Image.addBands
          (Image.toFloat (Image.addBands image t false))
          (Image.constant (Int 1)) false).

End Plot.

(** The scaled value of a raw 16-bit digital number. *)
Definition celsius_value (dn : Z) : float :=
  (Number.of_Z dn * 0.02 - 273.15)%float.

(** The scaled values of [count] consecutive digital numbers from [dn] on
    go up at every step. *)
Fixpoint dn_steps_ok (count : nat) (dn : Z) : bool :=
  match count with
  | O => true
  | S count' =>
      PrimFloat.ltb (celsius_value dn) (celsius_value (dn + 1))
      && dn_steps_ok count' (dn + 1)
  end.

(** Acquired in [start, stop). *)
Definition acquired_in (start stop : Z) (img : Image.t) : Prop :=
  ∃ ts, ImageCollection.time_start img = Some ts ∧ start ≤ ts < stop.

Definition sample_v2 : list Image.t :=
  default [] (@modisLST_v2 sample_platform).

(** The parameters of an export that the specification lists: the file
    format, the destination folder, the file name, the region, the scale and
    the reference system. *)
Definition listed_parameters : list string :=
  ["fileFormat"; "folder"; "fileNamePrefix"; "region"; "scale"; "crs"].

(** ** The specification's wording of the monthly composites *)

(** [img] is [src] scaled and masked and reduced to its temperature band:
    the band holds the Celsius value of the raw sample where the quality
    conditions hold on [QC_Day] and is masked elsewhere; the metadata is
    that of [src]. *)
Definition scaled_and_masked (src img : Image.t) : Prop :=
  Image.bandNames img = ["LST_Day_1km"]
  ∧ Image.properties img = Image.properties src
  ∧ ∃ d q,
      Image.find_band "LST_Day_1km" (Image.bands src) = Some d
      ∧ Image.find_band "QC_Day" (Image.bands src) = Some (Image.IntBand q)
      ∧ ∀ p, Image.value_at img "LST_Day_1km" p
             = Some (if from_option qa_keep false (q p)
                     then celsius <$> Image.sample d p
                     else None).

#[export] Instance acquired_in_dec (start stop : Z) (img : Image.t) :
  Decision (acquired_in start stop img).
Proof.
  unfold acquired_in.
  destruct (ImageCollection.time_start img) as [ts|].
  - destruct (decide (start ≤ ts < stop)) as [Hin|Hout].
    + left. now exists ts.
    + right. intros (t & [= <-] & Hin). now apply Hout.
  - right. intros (t & Ht & _). discriminate.
Defined.

(** The images of month [n], and the valid temperatures they hold at a
    pixel, in the order of the collection. *)
Definition month_images (c : list Image.t) (n : Z) : list Image.t :=
  filter (acquired_in (month_start n) (month_end n)) c.

Definition month_values (c : list Image.t) (n : Z) (p : Image.Pixel) : list float :=
  omap (λ img, Number.to_float <$> mjoin (Image.value_at img "LST_Day_1km" p))
    (month_images c n).

(** ** The script's functions as JavaScript (source lines 28-63)

    The functions above say what the platform computes.  In the script they
    are JavaScript functions, held in variables of the script, and a call
    runs in the browser: it can read and assign the script's variables, and
    it can throw.  The platform's objects are handles: a method call on a
    handle computes nothing, it gives the handle of a computation that the
    platform carries out later.  A handle is modelled by what the platform
    will answer for it, [None] when it rejects the computation; so a call on
    a handle always returns, and only a value that is no handle makes a
    method call throw.

    A computation of the script takes the store of the script's variables
    and gives a value or an exception, and the store it leaves.  A method
    call is given a meaning for the shapes of arguments that the script's
    functions use; for the others the model says [Unmodelled]. *)

Module Js.

(** The methods of the platform's handles that the script's functions
    call. *)
Module Method.

Inductive t : Type :=
| select | multiply | add | subtract | lte | eq | and | rename | addBands
| updateMask | getNumber | toFloat | leftShift | rightShift | bitwiseAnd.

End Method.

(** The functions that the script declares (lines 28, 34, 43 and 58). *)
Inductive fn : Type :=
| BitwiseExtract
| ScaleModisLst
| MaskModisLst
| AddVariablesTime.

(** JavaScript values: plain values, handles of the platform's objects
    and the script's functions.  A handle carries what the platform will
    answer for it. *)
Inductive value : Type :=
| Undefined
| Null
| Bool (b : bool)
| Num (n : Number.t)
| Str (s : string)
| EeNumber (h : option Number.t)
| EeImage (h : option Image.t)
| Function (f : fn).

(** What a call can throw: [TypeError] when it calls what is not a
    function, such as a method that the receiver does not have;
    [ReferenceError] when it reads a variable that was never declared;
    [RangeError] when the call stack is exhausted.  [Unmodelled] is no
    exception of JavaScript: it marks a method call outside the shapes of
    arguments modelled here. *)
Inductive error : Type :=
| TypeError
| ReferenceError (name : string)
| RangeError
| Unmodelled.

Inductive outcome (A : Type) : Type :=
| Return (a : A)
| Throw (e : error).

Arguments Return {A} a.
Arguments Throw {A} e.

(** The script's variables, and a computation over them. *)
Definition store : Type := gmap string value.

Definition M (A : Type) : Type := store → outcome A * store.

Definition ret {A : Type} (a : A) : M A := λ s, (Return a, s).

Definition throw {A : Type} (e : error) : M A := λ s, (Throw e, s).

Definition bind {A B : Type} (m : M A) (k : A → M B) : M B :=
  λ s,
    match m s with
    | (Return a, s') => k a s'
    | (Throw e, s') => (Throw e, s')
    end.

#[global] Instance M_ret : MRet M := @ret.
#[global] Instance M_bind : MBind M := λ A B k m, bind m k.

(** Reading a variable, and the declaration [var name = v]. *)
Definition get (name : string) : M value :=
  λ s,
    match s !! name with
    | Some v => (Return v, s)
    | None => (Throw (ReferenceError name), s)
    end.

Definition declare (name : string) (v : value) : M unit :=
  λ s, (Return tt, <[name := v]> s).

(** An argument where the platform expects a number, or an image: the
    client library wraps a JavaScript number into a handle, and makes a
    constant image of a number. *)
Definition number_arg (v : value) : M (option Number.t) :=
  match v with
  | Num n => ret (Some n)
  | EeNumber h => ret h
  | _ => throw Unmodelled
  end.

Definition image_arg (v : value) : M (option Image.t) :=
  match v with
  | EeImage h => ret h
  | Num n => ret (Some (Image.constant n))
  | EeNumber h => ret (Image.constant <$> h)
  | _ => throw Unmodelled
  end.

(** [ee.Number(v)] and [ee.Image(v)]. *)
Definition ee_Number (v : value) : M value :=
  h ← number_arg v; ret (EeNumber h).

Definition ee_Image (v : value) : M value :=
  h ← image_arg v; ret (EeImage h).

(** The methods of an [ee.Number] and of an [ee.Image].  The result is a
    new handle: it is rejected when the receiver or an argument is, or when
    the platform rejects the operation.  A number has none of the methods
    that are for images only. *)
Definition number_method (h : option Number.t) (m : Method.t) (args : list value) : M value :=
  match m, args with
  | Method.add, [c] =>
      c ← number_arg c; ret (EeNumber (x ← h; y ← c; Some (Number.add x y)))
  | Method.subtract, [c] =>
      c ← number_arg c; ret (EeNumber (x ← h; y ← c; Some (Number.subtract x y)))
  | Method.multiply, [c] =>
      c ← number_arg c; ret (EeNumber (x ← h; y ← c; Some (Number.multiply x y)))
  | Method.lte, [c] =>
      c ← number_arg c; ret (EeNumber (x ← h; y ← c; Some (Number.lte x y)))
  | Method.eq, [c] =>
      c ← number_arg c; ret (EeNumber (x ← h; y ← c; Some (Number.eq x y)))
  | Method.and, [c] =>
      c ← number_arg c; ret (EeNumber (x ← h; y ← c; Some (Number.and x y)))
  | Method.leftShift, [c] =>
      c ← number_arg c; ret (EeNumber (x ← h; y ← c; Number.leftShift x y))
  | Method.rightShift, [c] =>
      c ← number_arg c; ret (EeNumber (x ← h; y ← c; Number.rightShift x y))
  | Method.bitwiseAnd, [c] =>
      c ← number_arg c; ret (EeNumber (x ← h; y ← c; Number.bitwiseAnd x y))
  | (Method.select | Method.rename | Method.addBands | Method.updateMask
     | Method.getNumber), _ => throw TypeError
  | _, _ => throw Unmodelled
  end.

Definition image_method (h : option Image.t) (m : Method.t) (args : list value) : M value :=
  match m, args with
  | Method.select, [Str name] =>
      ret (EeImage (img ← h; Image.select img [name]))
  | Method.rename, [Str name] =>
      ret (EeImage (img ← h; Image.rename img [name]))
  | Method.getNumber, [Str key] =>
      ret (EeNumber (img ← h; Image.getNumber img key))
  | Method.toFloat, [] =>
      ret (EeImage (Image.toFloat <$> h))
  | Method.multiply, [c] =>
      c ← number_arg c; ret (EeImage (img ← h; y ← c; Some (Image.multiply img y)))
  | Method.add, [c] =>
      c ← number_arg c; ret (EeImage (img ← h; y ← c; Some (Image.add img y)))
  | Method.lte, [c] =>
      c ← number_arg c; ret (EeImage (img ← h; y ← c; Some (Image.lte img y)))
  | Method.eq, [c] =>
      c ← number_arg c; ret (EeImage (img ← h; y ← c; Some (Image.eq img y)))
  | Method.rightShift, [c] =>
      c ← number_arg c; ret (EeImage (img ← h; y ← c; Image.rightShift img y))
  | Method.bitwiseAnd, [c] =>
      c ← number_arg c; ret (EeImage (img ← h; y ← c; Image.bitwiseAnd img y))
  | Method.and, [other] =>
      other ← image_arg other; ret (EeImage (a ← h; b ← other; Image.and a b))
  | Method.updateMask, [mask] =>
      mask ← image_arg mask; ret (EeImage (img ← h; m ← mask; Image.updateMask img m))
  | Method.addBands, [src] =>
      src ← image_arg src; ret (EeImage (img ← h; b ← src; Some (Image.addBands img b false)))
  | Method.addBands, [src; Null; Bool overwrite] =>
      src ← image_arg src; ret (EeImage (img ← h; b ← src; Some (Image.addBands img b overwrite)))
  | _, _ => throw Unmodelled
  end.

(** [receiver.m(args)].  A value that is no handle has none of the
    methods. *)
Definition method (receiver : value) (m : Method.t) (args : list value) : M value :=
  match receiver with
  | EeNumber h => number_method h m args
  | EeImage h => image_method h m args
  | _ => throw TypeError
  end.

(** Lines 28-32. *)
Definition bitwiseExtract (input fromBit toBit : value) : M value :=
  one ← ee_Number (Num (Int 1));
  sum ← method one Method.add [toBit];
  maskSize ← method sum Method.subtract [fromBit];
  one ← ee_Number (Num (Int 1));
  power ← method one Method.leftShift [maskSize];
  mask ← method power Method.subtract [Num (Int 1)];
  shifted ← method input Method.rightShift [fromBit];
  method shifted Method.bitwiseAnd [mask].

(** Lines 34-40. *)
Definition scaleModisLst (image : value) : M value :=
  selected ← method image Method.select [Str "LST_Day_1km"];
  multiplied ← method selected Method.multiply [Num (Dbl 0.02)];
  thermalBands ← method multiplied Method.add [Num (Dbl (-273.15))];
  method image Method.addBands [thermalBands; Null; Bool true].

(** Lines 43-55.  [maskModisLst] calls the function that the variable
    [bitwiseExtract] holds when it runs; [qaMask] is a variable of its own,
    declared at line 49 and assigned again at line 52. *)
Section Calls.

Variable call : value → list value → M value.

Definition maskModisLst (image : value) : M value :=
  qcDay ← method image Method.select [Str "QC_Day"];
  f ← get "bitwiseExtract";
  field ← call f [qcDay; Num (Int 0); Num (Int 1)];
  qaMask ← method field Method.lte [Num (Int 1)];
  f ← get "bitwiseExtract";
  field ← call f [qcDay; Num (Int 2); Num (Int 3)];
  dataQualityMask ← method field Method.eq [Num (Int 0)];
  f ← get "bitwiseExtract";
  field ← call f [qcDay; Num (Int 6); Num (Int 7)];
  lstErrorMask ← method field Method.lte [Num (Int 1)];
  both ← method qaMask Method.and [dataQualityMask];
  all ← method both Method.and [lstErrorMask];
  qaMask ← method all Method.rename [Str "qaMask"];
  added ← method image Method.addBands [qaMask];
  method added Method.updateMask [qaMask].

End Calls.

(** Lines 58-63. *)
Definition addVariablesTime (image : value) : M value :=
  time_start ← method image Method.getNumber [Str "system:time_start"];
  constant ← ee_Image time_start;
  renamed ← method constant Method.rename [Str "millis"];
  millis ← method renamed Method.toFloat [];
  method image Method.addBands [millis].

(** A call [f(args)].  A parameter that gets no argument is [undefined];
    [depth] bounds the depth of nested calls. *)
Definition arg (i : nat) (args : list value) : value := default Undefined (args !! i).

Fixpoint call (depth : nat) (f : value) (args : list value) : M value :=
  match depth with
  | O => throw RangeError
  | S depth' =>
      match f with
      | Function BitwiseExtract => bitwiseExtract (arg 0 args) (arg 1 args) (arg 2 args)
      | Function ScaleModisLst => scaleModisLst (arg 0 args)
      | Function MaskModisLst => maskModisLst (call depth') (arg 0 args)
      | Function AddVariablesTime => addVariablesTime (arg 0 args)
      | _ => throw TypeError
      end
  end.

(** [f] called on each input in turn, the variables passed on from one
    call to the next. *)
Fixpoint each (depth : nat) (f : value) (inputs : list value) : M (list value) :=
  match inputs with
  | [] => ret []
  | input :: rest =>
      result ← call depth f [input];
      results ← each depth f rest;
      ret (result :: results)
  end.

(** The declarations of lines 28, 34, 43 and 58, and the variables they
    leave. *)
Definition declarations : M unit :=
  _ ← declare "bitwiseExtract" (Function BitwiseExtract);
  _ ← declare "scaleModisLst" (Function ScaleModisLst);
  _ ← declare "maskModisLst" (Function MaskModisLst);
  declare "addVariablesTime" (Function AddVariablesTime).

Definition script_globals : store := (declarations ∅).2.

End Js.

(** The three transforms, each with what the platform computes for it. *)
Definition js_transforms : list (Js.fn * (Image.t → option Image.t)) :=
  [(Js.ScaleModisLst, scaleModisLst);
   (Js.MaskModisLst, maskModisLst);
   (Js.AddVariablesTime, addVariablesTime)].

(** * Properties *)

(** ** The bit-field helper on numbers *)

Section BitwiseExtract.

Lemma bitwiseExtract_number (v f t : Z) :
  bitwiseExtract (Int v) (Int f) (Int t) = Some (Int (extract_formula v f t)).
Proof.
  unfold bitwiseExtract, extract_formula; simpl.
  now replace (1 + t - f) with (t - f + 1) by lia.
Qed.

Lemma shiftl_1_ones (n : Z) : 0 ≤ n → Z.shiftl 1 n - 1 = Z.ones n.
Proof. intros Hn. now rewrite Z.shiftl_1_l, Z.sub_1_r, <- Z.ones_equiv. Qed.

Lemma extract_formula_mod (v f n : Z) :
  0 ≤ n → Z.land (Z.shiftr v f) (Z.shiftl 1 n - 1) = Z.shiftr v f mod 2 ^ n.
Proof. intros Hn. rewrite shiftl_1_ones by lia. now apply Z.land_ones. Qed.

Lemma extract_formula_field (v f t : Z) :
  0 ≤ f ≤ t → extract_formula v f t = bit_field v f t.
Proof.
  intros Hft. unfold extract_formula, bit_field.
  rewrite extract_formula_mod by lia.
  now rewrite Z.shiftr_div_pow2 by lia.
Qed.

Lemma extract_formula_testbit (v f t i : Z) :
  0 ≤ f ≤ t → 0 ≤ i →
  Z.testbit (extract_formula v f t) i = Z.testbit v (f + i) && (i <? t - f + 1).
Proof.
  intros Hft Hi. unfold extract_formula.
  rewrite shiftl_1_ones by lia.
  rewrite Z.land_spec, Z.shiftr_spec by lia.
  rewrite Z.testbit_ones_nonneg by lia.
  now rewrite (Z.add_comm i f).
Qed.

Lemma bit_field_bounds (v f t : Z) :
  f ≤ t → 0 ≤ bit_field v f t < 2 ^ (t - f + 1).
Proof.
  intros Hft. unfold bit_field. apply Z.mod_pos_bound.
  apply Z.pow_pos_nonneg; lia.
Qed.

End BitwiseExtract.

(** ** The bit-field helper on images *)

Section BitwiseExtractImage.

Lemma map_bitop (op : Z → Z → Z) (c : Z) (bs : list Image.Band) :
  Forall Image.integer_band bs →
  ∃ out,
    mapM (λ b : Image.Band, (λ d, (b.1, d)) <$> Image.band_bitop op (Int c) b.2) bs = Some out
    ∧ Forall Image.integer_band out
    ∧ out.*1 = bs.*1
    ∧ ∀ name p,
        (λ d, Image.sample d p) <$> Image.find_band name out
        = (λ d, Image.sample d p ≫= (λ v, Number.bitop op v (Int c)))
            <$> Image.find_band name bs.
Proof.
  induction 1 as [|[n d] bs [f Hd] Hrest (out & Hout & Hint & Hnames & Hval)].
  - exists []. repeat split; constructor.
  - simpl in Hd. subst d.
    exists ((n, Image.IntBand (λ p, (λ x, op x c) <$> f p)) :: out).
    split; [cbn; cbn in Hout; now rewrite Hout|].
    split; [constructor; [now eexists | exact Hint]|].
    split; [csimpl; now rewrite Hnames|].
    intros name p. cbn [Image.find_band]. case_decide; [|apply Hval].
    cbn. now destruct (f p).
Qed.

Lemma image_bitop (op : Z → Z → Z) (c : Z) (img : Image.t) :
  Image.integer_bands img →
  ∃ out,
    Image.map_bandsM (Image.band_bitop op (Int c)) img = Some out
    ∧ Image.integer_bands out
    ∧ Image.bandNames out = Image.bandNames img
    ∧ ∀ name p,
        Image.value_at out name p
        = (λ s, s ≫= (λ v, Number.bitop op v (Int c))) <$> Image.value_at img name p.
Proof.
  intros Hint. destruct (map_bitop op c _ Hint) as (out & Hout & Hint' & Hnames & Hval).
  exists (Image.mk out ∅). unfold Image.map_bandsM. rewrite Hout.
  split; [reflexivity|]. split; [exact Hint'|]. split; [exact Hnames|].
  intros name p. unfold Image.value_at. cbn [Image.bands].
  rewrite Hval. now destruct (Image.find_band name (Image.bands img)).
Qed.

Lemma bitwiseExtract_image (img : Image.t) (f t : Z) :
  Image.integer_bands img →
  ∃ out,
    bitwiseExtract img (Int f) (Int t) = Some out
    ∧ Image.bandNames out = Image.bandNames img
    ∧ ∀ name p,
        Image.value_at out name p
        = (λ s, s ≫= (λ v, bitwiseExtract v (Int f) (Int t)))
            <$> Image.value_at img name p.
Proof.
  intros Hint.
  destruct (image_bitop Z.shiftr f img Hint) as (shifted & Hs & Hint' & Hn & Hv).
  destruct (image_bitop Z.land (Z.shiftl 1 (1 + t - f) - 1) shifted Hint')
    as (out & Ho & _ & Hn' & Hv').
  exists out. split.
  { unfold bitwiseExtract. cbn -[Z.shiftl]. unfold Image.rightShift, Image.bitwiseAnd.
    rewrite Hs. cbn [mbind option_bind]. exact Ho. }
  split; [now rewrite Hn', Hn|].
  intros name p. rewrite Hv', Hv.
  destruct (Image.value_at img name p) as [[[v|x]|]|]; reflexivity.
Qed.

End BitwiseExtractImage.

(** C1.  For a non-negative integer [value] and bit positions
    [fromBit <= toBit], [bitwiseExtract] returns
    [(value >> fromBit) & ((1 << (toBit - fromBit + 1)) - 1)], which is the
    unsigned integer written by bits [fromBit..toBit] of [value]: bit [i] of
    the result is bit [fromBit + i] of [value] for [i] up to the width of the
    field, and no bit is set above. *)
Theorem bitwiseExtract_formula (value fromBit toBit : Z) :
  0 ≤ value →
  0 ≤ fromBit ≤ toBit →
  bitwiseExtract (Int value) (Int fromBit) (Int toBit)
    = Some (Int (extract_formula value fromBit toBit))
  ∧ extract_formula value fromBit toBit = bit_field value fromBit toBit
  ∧ ∀ i, 0 ≤ i →
      Z.testbit (extract_formula value fromBit toBit) i
        = Z.testbit value (fromBit + i) && (i <? toBit - fromBit + 1).
Proof.
  intros _ Hbits. split; [apply bitwiseExtract_number|].
  split; [now apply extract_formula_field|].
  intros i Hi. now apply extract_formula_testbit.
Qed.

Lemma bitwiseExtract_formula_witness :
  bitwiseExtract (Int 183) (Int 2) (Int 5) = Some (Int 13)
  ∧ bit_field 183 2 5 = 13.
Proof.
  destruct (bitwiseExtract_formula 183 2 5) as (Hrun & Hfield & _); [lia | lia |].
  split.
  - exact Hrun.
  - rewrite <- Hfield. reflexivity.
Defined.

(** C9.  For a non-negative integer [value] and bit positions
    [fromBit <= toBit], the result of [bitwiseExtract] lies in
    [0 .. 2^(toBit - fromBit + 1) - 1]; a field of two bits lies in
    [0 .. 3]. *)
Theorem bitwiseExtract_bounds (value fromBit toBit : Z) :
  0 ≤ value →
  0 ≤ fromBit ≤ toBit →
  ∃ result,
    bitwiseExtract (Int value) (Int fromBit) (Int toBit) = Some (Int result)
    ∧ 0 ≤ result < 2 ^ (toBit - fromBit + 1)
    ∧ (toBit = fromBit + 1 → 0 ≤ result ≤ 3).
Proof.
  intros _ Hbits. exists (extract_formula value fromBit toBit).
  split; [apply bitwiseExtract_number|].
  rewrite extract_formula_field by lia.
  pose proof (bit_field_bounds value fromBit toBit) as Hb.
  split; [apply Hb; lia|].
  intros ->. specialize (Hb ltac:(lia)).
  replace (fromBit + 1 - fromBit + 1) with 2 in Hb by lia.
  change (2 ^ 2) with 4 in Hb. lia.
Qed.

Lemma bitwiseExtract_bounds_witness :
  ∃ result,
    bitwiseExtract (Int 255) (Int 6) (Int 7) = Some (Int result)
    ∧ 0 ≤ result < 2 ^ (7 - 6 + 1)
    ∧ (7 = 6 + 1 → 0 ≤ result ≤ 3).
Proof. apply (bitwiseExtract_bounds 255 6 7); lia. Defined.

(** ** Calls of the script's functions

    A call on handles returns the handle of what the reference semantics
    computes, and leaves the script's variables as they were. *)

Section ClientCalls.

#[local] Arguments mbind {_ _ _ _} _ _ / : assert.

Ltac js_run :=
  cbn [mbind mret Js.M_bind Js.M_ret Js.bind Js.ret Js.throw Js.method
       Js.number_method Js.image_method Js.number_arg Js.image_arg
       Js.ee_Number Js.ee_Image].

Ltac option_run := cbn [mbind option_bind fmap option_fmap option_map].

Lemma js_bitwiseExtract_number (depth : nat) (s : Js.store) (h : option Number.t) (a b : Number.t) :
  Js.call (S depth) (Js.Function Js.BitwiseExtract) [Js.EeNumber h; Js.Num a; Js.Num b] s
  = (Js.Return (Js.EeNumber (h ≫= λ v, bitwiseExtract v a b)), s).
Proof.
  change (Js.call _ _ _) with (Js.bitwiseExtract (Js.EeNumber h) (Js.Num a) (Js.Num b)).
  unfold Js.bitwiseExtract. js_run.
  do 3 f_equal. unfold bitwiseExtract.
  destruct h as [v|]; cbn [mbind option_bind]; [|reflexivity].
  cbn [rightShift bitwiseAnd Number_BitOperand].
  destruct (Number.leftShift _ _) as [m|]; cbn [fmap option_fmap option_map mbind option_bind];
    [reflexivity|].
  now destruct (Number.rightShift v a).
Qed.

Lemma js_bitwiseExtract_image (depth : nat) (s : Js.store) (h : option Image.t) (a b : Number.t) :
  Js.call (S depth) (Js.Function Js.BitwiseExtract) [Js.EeImage h; Js.Num a; Js.Num b] s
  = (Js.Return (Js.EeImage (h ≫= λ v, bitwiseExtract v a b)), s).
Proof.
  change (Js.call _ _ _) with (Js.bitwiseExtract (Js.EeImage h) (Js.Num a) (Js.Num b)).
  unfold Js.bitwiseExtract. js_run.
  do 3 f_equal. unfold bitwiseExtract.
  destruct h as [v|]; cbn [mbind option_bind]; [|reflexivity].
  cbn [rightShift bitwiseAnd Image_BitOperand].
  destruct (Number.leftShift _ _) as [m|]; cbn [fmap option_fmap option_map mbind option_bind];
    [reflexivity|].
  now destruct (Image.rightShift v a).
Qed.

Lemma js_scaleModisLst (depth : nat) (s : Js.store) (h : option Image.t) :
  Js.call (S depth) (Js.Function Js.ScaleModisLst) [Js.EeImage h] s
  = (Js.Return (Js.EeImage (h ≫= scaleModisLst)), s).
Proof.
  change (Js.call _ _ _) with (Js.scaleModisLst (Js.EeImage h)).
  unfold Js.scaleModisLst. js_run.
  do 3 f_equal. unfold scaleModisLst.
  destruct h as [image|]; cbn [mbind option_bind]; [|reflexivity].
  now destruct (Image.select image ["LST_Day_1km"]).
Qed.

Lemma js_addVariablesTime (depth : nat) (s : Js.store) (h : option Image.t) :
  Js.call (S depth) (Js.Function Js.AddVariablesTime) [Js.EeImage h] s
  = (Js.Return (Js.EeImage (h ≫= addVariablesTime)), s).
Proof.
  change (Js.call _ _ _) with (Js.addVariablesTime (Js.EeImage h)).
  unfold Js.addVariablesTime. js_run.
  do 3 f_equal. unfold addVariablesTime.
  destruct h as [image|]; cbn [mbind option_bind]; [|reflexivity].
  destruct (Image.getNumber image "system:time_start") as [ts|];
    cbn [fmap option_fmap option_map mbind option_bind]; [|reflexivity].
  now destruct (Image.rename (Image.constant ts) ["millis"]).
Qed.

Lemma js_maskModisLst (depth : nat) (s : Js.store) (h : option Image.t) :
  s !! "bitwiseExtract" = Some (Js.Function Js.BitwiseExtract) →
  Js.call (S (S depth)) (Js.Function Js.MaskModisLst) [Js.EeImage h] s
  = (Js.Return (Js.EeImage (h ≫= maskModisLst)), s).
Proof.
  intros Hbound.
  change (Js.call (S (S depth)) (Js.Function Js.MaskModisLst) [Js.EeImage h])
    with (Js.maskModisLst (Js.call (S depth)) (Js.EeImage h)).
  unfold Js.maskModisLst, Js.get. unfold Js.M_bind, Js.bind. js_run.
  do 3 (rewrite Hbound; js_run; rewrite js_bitwiseExtract_image; js_run).
  unfold Js.ret. do 3 f_equal. unfold maskModisLst.
  destruct h as [image|]; option_run; [|reflexivity].
  destruct (Image.select image ["QC_Day"]) as [qcDay|]; option_run; [|reflexivity].
  destruct (bitwiseExtract qcDay (Int 0) (Int 1)) as [f01|];
    destruct (bitwiseExtract qcDay (Int 2) (Int 3)) as [f23|];
    destruct (bitwiseExtract qcDay (Int 6) (Int 7)) as [f67|];
    option_run; try reflexivity;
    repeat (match goal with
            | |- context [Image.and ?a ?b] => destruct (Image.and a b)
            | |- context [Image.rename ?a ?b] => destruct (Image.rename a b)
            end; option_run; try reflexivity).
Qed.

Lemma js_transform (f : Js.fn) (g : Image.t → option Image.t)
    (depth : nat) (s : Js.store) (h : option Image.t) :
  (f, g) ∈ js_transforms →
  s !! "bitwiseExtract" = Some (Js.Function Js.BitwiseExtract) →
  Js.call (S (S depth)) (Js.Function f) [Js.EeImage h] s
  = (Js.Return (Js.EeImage (h ≫= g)), s).
Proof.
  unfold js_transforms. rewrite !elem_of_cons, elem_of_nil.
  intros [[= -> ->]|[[= -> ->]|[[= -> ->]|[]]]] Hbound.
  - apply js_scaleModisLst.
  - now apply js_maskModisLst.
  - apply js_addVariablesTime.
Qed.

End ClientCalls.



(** ** Bands and images *)

Section Bands.

Implicit Types (bs : list Image.Band) (d : Image.BandData) (name : string).

Lemma find_band_Some_elem name bs d :
  Image.find_band name bs = Some d → name ∈ bs.*1.
Proof.
  induction bs as [|[n d'] bs IH]; simpl; [discriminate|].
  case_decide; subst; intros Hf.
  - left.
  - right. auto.
Qed.

Lemma find_band_replace_gen name n d' bs :
  Image.find_band name ((λ x : Image.Band, if decide (x.1 = n) then (n, d') else x) <$> bs)
  = if decide (name = n)
    then (if decide (n ∈ bs.*1) then Some d' else None)
    else Image.find_band name bs.
Proof.
  induction bs as [|[m d] bs IH].
  - simpl. now case_decide.
  - csimpl. destruct (decide (m = n)) as [->|Hmn]; csimpl.
    + destruct (decide (n = name)) as [->|Hne].
      * rewrite decide_True by reflexivity.
        rewrite decide_True; [reflexivity|left].
      * rewrite IH. now rewrite !decide_False by congruence.
    + destruct (decide (m = name)) as [->|Hne].
      * now rewrite decide_False by congruence.
      * rewrite IH. case_decide; [|reflexivity].
        destruct (decide (n ∈ bs.*1)) as [Hin|Hin].
        -- rewrite decide_True; [reflexivity|now right].
        -- rewrite decide_False; [reflexivity|].
           intros Hin'. inversion Hin'; subst; congruence.
Qed.

Lemma find_band_replace name n d' bs :
  n ∈ bs.*1 →
  Image.find_band name ((λ x : Image.Band, if decide (x.1 = n) then (n, d') else x) <$> bs)
  = if decide (name = n) then Some d' else Image.find_band name bs.
Proof.
  intros Hin. rewrite find_band_replace_gen.
  case_decide; [|reflexivity]. now rewrite decide_True.
Qed.

Lemma replace_names n d' bs :
  ((λ x : Image.Band, if decide (x.1 = n) then (n, d') else x) <$> bs).*1 = bs.*1.
Proof.
  induction bs as [|[m d] bs IH]; [reflexivity|].
  csimpl. rewrite IH. now destruct (decide (m = n)) as [->|].
Qed.

Lemma find_band_app name bs bs' :
  Image.find_band name (bs ++ bs')
  = match Image.find_band name bs with
    | Some d => Some d
    | None => Image.find_band name bs'
    end.
Proof.
  induction bs as [|[n d] bs IH]; [reflexivity|].
  csimpl. now case_decide.
Qed.

Lemma find_band_None name bs :
  name ∉ bs.*1 → Image.find_band name bs = None.
Proof.
  induction bs as [|[n d] bs IH]; [reflexivity|].
  csimpl. intros Hn. rewrite decide_False.
  - apply IH. intros ?. apply Hn. now right.
  - intros ->. apply Hn. left.
Qed.

Lemma find_band_fmap (g : Image.BandData → Image.BandData) name bs :
  Image.find_band name ((λ x : Image.Band, (x.1, g x.2)) <$> bs)
  = g <$> Image.find_band name bs.
Proof.
  induction bs as [|[n d] bs IH]; [reflexivity|].
  csimpl. now case_decide.
Qed.

Lemma select_one (img : Image.t) name d :
  Image.find_band name (Image.bands img) = Some d →
  Image.select img [name] = Some (Image.mk [(name, d)] (Image.properties img)).
Proof. intros Hf. unfold Image.select. csimpl. now rewrite Hf. Qed.

End Bands.

(** ** Scaling *)

Section Scale.

(** Adding the negated offset is subtracting the offset. *)
Lemma add_negated_offset (x : float) :
  (x + -273.15)%float = (x - 273.15)%float.
Proof.
  apply Prim2SF_inj. rewrite add_spec, sub_spec.
  change (Prim2SF (-273.15)) with (SFopp (Prim2SF 273.15)).
  generalize (Prim2SF 273.15); intros c.
  unfold SF64add, SF64sub.
  destruct (Prim2SF x) as [[]|[]| |[] mx ex], c as [[]|[]| |[] mc ec]; reflexivity.
Qed.

Lemma scale_band_sample (d : Image.BandData) (p : Image.Pixel) :
  Image.sample
    (Image.band_arith Z.add PrimFloat.add (Dbl (-273.15))
       (Image.band_arith Z.mul PrimFloat.mul (Dbl 0.02) d)) p
  = celsius <$> Image.sample d p.
Proof.
  unfold celsius.
  destruct d as [f|f]; simpl; destruct (f p); simpl; try reflexivity;
    now rewrite add_negated_offset.
Qed.

Lemma scaleModisLst_unfold (image : Image.t) (d : Image.BandData) :
  Image.find_band "LST_Day_1km" (Image.bands image) = Some d →
  scaleModisLst image
  = Some (Image.mk
            ((λ x : Image.Band,
                if decide (x.1 = "LST_Day_1km")
                then ("LST_Day_1km",
                      Image.band_arith Z.add PrimFloat.add (Dbl (-273.15))
                        (Image.band_arith Z.mul PrimFloat.mul (Dbl 0.02) d))
                else x) <$> Image.bands image)
            (Image.properties image)).
Proof.
  intros Hf. unfold scaleModisLst.
  rewrite (select_one _ _ _ Hf). simpl.
  unfold Image.addBands, Image.add_band. simpl.
  now rewrite decide_True by (eapply find_band_Some_elem; eauto).
Qed.

End Scale.

(** C3.  For an image that has the band [LST_Day_1km], [scaleModisLst]
    returns the image in which the samples of that band have gone through
    [x * 0.02 - 273.15], in double precision; the scaled band stands where the
    original band stood (same band names in the same order, same metadata),
    and a masked pixel stays masked. *)
Theorem scaleModisLst_celsius (image : Image.t) (d : Image.BandData) :
  Image.find_band "LST_Day_1km" (Image.bands image) = Some d →
  ∃ out,
    scaleModisLst image = Some out
    ∧ Image.bandNames out = Image.bandNames image
    ∧ Image.properties out = Image.properties image
    ∧ ∀ p, Image.value_at out "LST_Day_1km" p = Some (celsius <$> Image.sample d p).
Proof.
  intros Hf. eexists. split; [exact (scaleModisLst_unfold _ _ Hf)|].
  split; [apply replace_names|]. split; [reflexivity|].
  intros p. unfold Image.value_at. simpl.
  rewrite find_band_replace by (eapply find_band_Some_elem; eauto).
  rewrite decide_True by reflexivity. simpl.
  now rewrite scale_band_sample.
Qed.

(** C10.  [scaleModisLst] changes the band [LST_Day_1km] only: the band
    names are those of the input, every other band is the band of the input,
    and the selection of [QC_Day] that [maskModisLst] starts from is the same
    on the scaled image as on the input. *)
Theorem scaleModisLst_frame (image : Image.t) (d : Image.BandData) :
  Image.find_band "LST_Day_1km" (Image.bands image) = Some d →
  ∃ out,
    scaleModisLst image = Some out
    ∧ Image.bandNames out = Image.bandNames image
    ∧ (∀ name, name ≠ "LST_Day_1km" →
         Image.find_band name (Image.bands out) = Image.find_band name (Image.bands image))
    ∧ Image.select out ["QC_Day"] = Image.select image ["QC_Day"].
Proof.
  intros Hf. eexists. split; [exact (scaleModisLst_unfold _ _ Hf)|].
  split; [apply replace_names|].
  assert (Hother : ∀ name, name ≠ "LST_Day_1km" →
    Image.find_band name
      (Image.bands
         (Image.mk
            ((λ x : Image.Band,
                if decide (x.1 = "LST_Day_1km")
                then ("LST_Day_1km",
                      Image.band_arith Z.add PrimFloat.add (Dbl (-273.15))
                        (Image.band_arith Z.mul PrimFloat.mul (Dbl 0.02) d))
                else x) <$> Image.bands image)
            (Image.properties image)))
    = Image.find_band name (Image.bands image)).
  { intros name Hne. cbn [Image.bands]. rewrite find_band_replace_gen.
    now rewrite decide_False. }
  split; [exact Hother|].
  unfold Image.select. cbn [mapM]. rewrite Hother by discriminate. reflexivity.
Qed.

(** ** Masking *)

Section Mask.

Lemma nonzero_of_bool (b : bool) : Number.nonzero (Int (Z.b2z b)) = b.
Proof. now destruct b. Qed.

Lemma sample_mask_band (d m : Image.BandData) (p : Image.Pixel) :
  Image.sample (Image.mask_band d m) p
  = if from_option Number.nonzero false (Image.sample m p)
    then Image.sample d p
    else None.
Proof.
  destruct d as [f|f]; simpl;
    now destruct (from_option Number.nonzero false (Image.sample m p)).
Qed.

Lemma maskModisLst_unfold (image : Image.t) (q : Image.Pixel → option Z) :
  Image.find_band "QC_Day" (Image.bands image) = Some (Image.IntBand q) →
  "qaMask" ∉ Image.bandNames image →
  maskModisLst image
  = Some (Image.mk
            ((λ x : Image.Band, (x.1, Image.mask_band x.2 (quality_mask q)))
               <$> (Image.bands image ++ [("qaMask", quality_mask q)]))
            (Image.properties image)).
Proof.
  intros Hq Hfresh. unfold maskModisLst.
  rewrite (select_one _ _ _ Hq).
  cbn -[Z.shiftr Z.land Z.leb Z.eqb Z.shiftl].
  unfold Image.addBands, Image.add_band. cbn [foldl Image.bands fst snd].
  unfold Image.rename. cbn [length Image.bands]. rewrite decide_True by reflexivity.
  cbn [mbind option_bind foldl Image.bands fst snd zip zip_with fmap list_fmap].
  rewrite decide_False by exact Hfresh.
  reflexivity.
Qed.

Lemma sample_field_band (q : Image.Pixel → option Z) (f t : Z) (p : Image.Pixel) :
  0 ≤ f ≤ t →
  Image.sample (field_band q f t) p = (λ v, Int (bit_field v f t)) <$> q p.
Proof.
  intros Hft. unfold field_band. simpl.
  destruct (q p) as [v|]; [|reflexivity]. simpl.
  rewrite <- extract_formula_field by lia. unfold extract_formula.
  now replace (1 + t - f) with (t - f + 1) by lia.
Qed.

Lemma sample_quality_mask (q : Image.Pixel → option Z) (p : Image.Pixel) :
  Image.sample (quality_mask q) p = (λ v, Int (Z.b2z (qa_keep v))) <$> q p.
Proof.
  unfold quality_mask, Image.band_and, Image.band_test.
  cbn [Image.sample]. rewrite !sample_field_band by lia.
  destruct (q p) as [v|]; [|reflexivity].
  cbn [fmap option_fmap option_map].
  rewrite !nonzero_of_bool. reflexivity.
Qed.

Lemma keep_quality_mask (q : Image.Pixel → option Z) (p : Image.Pixel) :
  from_option Number.nonzero false (Image.sample (quality_mask q) p)
  = from_option qa_keep false (q p).
Proof.
  rewrite sample_quality_mask. destruct (q p); [|reflexivity].
  simpl. apply nonzero_of_bool.
Qed.

Lemma extract_formula_ext (qc qc' f t : Z) :
  0 ≤ f ≤ t →
  (∀ i, f ≤ i ≤ t → Z.testbit qc i = Z.testbit qc' i) →
  bit_field qc f t = bit_field qc' f t.
Proof.
  intros Hft Hbits. rewrite <- !extract_formula_field by lia.
  apply Z.bits_inj'. intros i Hi.
  rewrite !extract_formula_testbit by lia.
  destruct (Z.ltb_spec i (t - f + 1)); [|now rewrite !andb_false_r].
  rewrite Hbits by lia. reflexivity.
Qed.

End Mask.

(** C8.  For an image whose band [QC_Day] is an integer band (and that has
    no band [qaMask] yet), [maskModisLst] keeps a pixel exactly when its
    [QC_Day] value has mandatory QA flag (bits 0-1) at most 1, data quality
    flag (bits 2-3) equal to 0 and LST error flag (bits 6-7) at most 1: where
    that holds every band keeps its sample, elsewhere every band is masked.
    The emissivity error flag (bits 4-5) has no part in it, and the mask is
    added to the image as the last band, named [qaMask]. *)
Theorem maskModisLst_keeps (image : Image.t) (q : Image.Pixel → option Z) :
  Image.find_band "QC_Day" (Image.bands image) = Some (Image.IntBand q) →
  "qaMask" ∉ Image.bandNames image →
  ∃ out,
    maskModisLst image = Some out
    ∧ Image.bandNames out = Image.bandNames image ++ ["qaMask"]
    ∧ (∀ p,
         let keep := from_option qa_keep false (q p) in
         Image.value_at out "qaMask" p = Some (if keep then Some (Int 1) else None)
         ∧ ∀ name d,
             Image.find_band name (Image.bands image) = Some d →
             Image.value_at out name p = Some (if keep then Image.sample d p else None))
    ∧ (∀ qc,
         qa_keep qc = true
         ↔ bit_field qc 0 1 ≤ 1 ∧ bit_field qc 2 3 = 0 ∧ bit_field qc 6 7 ≤ 1)
    ∧ (∀ qc qc',
         (∀ i, 0 ≤ i → i ≠ 4 → i ≠ 5 → Z.testbit qc i = Z.testbit qc' i) →
         qa_keep qc = qa_keep qc').
Proof.
  intros Hq Hfresh. eexists.
  split; [exact (maskModisLst_unfold _ _ Hq Hfresh)|].
  split.
  { unfold Image.bandNames. cbn [Image.bands].
    rewrite <- list_fmap_compose, fmap_app. reflexivity. }
  split.
  { intros p keep. unfold Image.value_at. cbn [Image.bands]. split.
    - rewrite (find_band_fmap (λ d, Image.mask_band d (quality_mask q))), find_band_app.
      rewrite find_band_None by exact Hfresh.
      cbn [Image.find_band]. rewrite decide_True by reflexivity.
      cbn [fmap option_fmap option_map]. f_equal.
      rewrite sample_mask_band, keep_quality_mask. fold keep.
      rewrite sample_quality_mask. subst keep.
      destruct (q p) as [v|]; [|reflexivity]. simpl.
      now destruct (qa_keep v).
    - intros name d Hd.
      rewrite (find_band_fmap (λ d, Image.mask_band d (quality_mask q))), find_band_app, Hd.
      cbn [fmap option_fmap option_map]. f_equal.
      now rewrite sample_mask_band, keep_quality_mask. }
  split.
  { intros qc. unfold qa_keep. rewrite !andb_true_iff, !Z.leb_le, Z.eqb_eq. tauto. }
  intros qc qc' Hbits. unfold qa_keep.
  rewrite (extract_formula_ext qc qc' 0 1), (extract_formula_ext qc qc' 2 3),
    (extract_formula_ext qc qc' 6 7); try lia; try reflexivity;
    intros i Hi; apply Hbits; lia.
Qed.

(** ** The transforms, called in turn *)

(** C7.  Each of [scaleModisLst], [maskModisLst] and [addVariablesTime]
    keeps no state between calls.  Called on any images one after the other,
    in a script whose variable [bitwiseExtract] holds the helper, every call
    returns; the result of a call is the handle of the transform of its own
    image, so the same image gets the same result each time and no call
    changes the result of another; and the script's variables are, after the
    calls, what they were before. *)
Theorem transforms_stateless (f : Js.fn) (g : Image.t → option Image.t)
    (depth : nat) (s : Js.store) (images : list (option Image.t)) :
  (f, g) ∈ js_transforms →
  s !! "bitwiseExtract" = Some (Js.Function Js.BitwiseExtract) →
  Js.each (S (S depth)) (Js.Function f) (Js.EeImage <$> images) s
  = (Js.Return ((λ h, Js.EeImage (h ≫= g)) <$> images), s).
Proof.
  intros Hf Hbound. induction images as [|h images IH]; [reflexivity|].
  cbn [fmap list_fmap Js.each].
  change (?m ≫= ?k) with (Js.bind m k) at 1.
  unfold Js.bind at 1. rewrite (js_transform f g depth s h Hf Hbound).
  change (?m ≫= ?k) with (Js.bind m k) at 1.
  unfold Js.bind at 1.
  change (list_fmap _ _ Js.EeImage images) with (Js.EeImage <$> images).
  rewrite IH. reflexivity.
Qed.

(** ** Monthly composites *)

Section Months.

Lemma months_ok : forallb month_ok (sequence 0 47 1) = true.
Proof. vm_compute. reflexivity. Qed.

Lemma sequence_lookup (n : nat) :
  (n < 48)%nat → sequence 0 (n_year * 12 - 1) 1 !! n = Some (Z.of_nat n).
Proof.
  intros Hn. unfold sequence.
  change (Z.to_nat ((n_year * 12 - 1 - 0) / 1 + 1)) with 48%nat.
  rewrite list_lookup_fmap, lookup_seq_lt by exact Hn.
  simpl. f_equal. lia.
Qed.

Lemma month_facts (n : nat) :
  (n < 48)%nat →
  month_start (Z.of_nat n)
    = Date.fromYMD (2018 + Z.of_nat n / 12) (Z.of_nat n mod 12 + 1) 1
  ∧ month_end (Z.of_nat n) = month_start (Z.of_nat n + 1)
  ∧ month_start (Z.of_nat n) < month_end (Z.of_nat n).
Proof.
  intros Hn. pose proof months_ok as Hall.
  rewrite forallb_forall in Hall.
  specialize (Hall (Z.of_nat n)).
  assert (Hin : In (Z.of_nat n) (sequence 0 47 1)).
  { apply list_elem_of_In, list_elem_of_lookup. exists n.
    now apply sequence_lookup. }
  specialize (Hall Hin). unfold month_ok in Hall.
  rewrite !andb_true_iff, !Z.eqb_eq, Z.ltb_lt in Hall. tauto.
Qed.

Lemma month_start_increasing (m n : nat) :
  (m < n)%nat → (n ≤ 48)%nat →
  month_start (Z.of_nat m) < month_start (Z.of_nat n).
Proof.
  induction n as [|n IH]; [lia|]. intros Hm Hn.
  destruct (month_facts n) as (_ & Hadj & Hlt); [lia|].
  replace (Z.of_nat (S n)) with (Z.of_nat n + 1) by lia.
  rewrite <- Hadj.
  destruct (decide (m = n)) as [->|Hne]; [exact Hlt|].
  specialize (IH ltac:(lia) ltac:(lia)). lia.
Qed.

Lemma month_cover (k : nat) (ts : Z) :
  (k ≤ 48)%nat →
  month_start 0 ≤ ts < month_start (Z.of_nat k) →
  ∃ n : nat, (n < k)%nat ∧ month_start (Z.of_nat n) ≤ ts < month_end (Z.of_nat n).
Proof.
  induction k as [|k IH]; intros Hk Hts; [change (Z.of_nat 0) with 0 in Hts; lia|].
  destruct (month_facts k) as (_ & Hadj & _); [lia|].
  replace (Z.of_nat (S k)) with (Z.of_nat k + 1) in Hts by lia.
  destruct (Z.lt_ge_cases ts (month_start (Z.of_nat k))) as [Hlt|Hge].
  - destruct IH as (n & Hn & Hin); [lia | lia |]. exists n. split; [lia | exact Hin].
  - exists k. split; [lia|]. rewrite Hadj. lia.
Qed.

Lemma filterDate_spec (c : list Image.t) (start stop : Date.t) (img : Image.t) :
  img ∈ ImageCollection.filterDate c start stop
  ↔ img ∈ c ∧ ∃ ts, ImageCollection.time_start img = Some ts ∧ start ≤ ts < stop.
Proof.
  unfold ImageCollection.filterDate. rewrite list_elem_of_filter.
  unfold ImageCollection.in_range, Date.millis.
  destruct (ImageCollection.time_start img) as [ts|].
  - rewrite andb_true_iff, Z.leb_le, Z.ltb_lt. split.
    + intros [Hr Hin]. split; [exact Hin|]. exists ts. split; [reflexivity | exact Hr].
    + intros [Hin (ts' & Heq & Hr)]. injection Heq as <-. split; [exact Hr | exact Hin].
  - split; [intros [Hr _]; discriminate|]. intros [_ (ts & Heq & _)]. discriminate.
Qed.

End Months.

(** ** The export request *)

(** C6, as the code has it.  The script issues one export request.  It
    asks for a [GeoTIFF] file and gives the folder [GEO874_2023FA], a file name prefix, the region
    (the first feature of the region of interest, buffered by 10000 m, then
    its bounding box), the scale of 1000 m per pixel and the reference
    system [EPSG:4326]; besides these it names the image to export and the
    task. *)
Theorem export_request `{Platform} :
  exports = [export_monthly]
  ∧ ∀ r, r ∈ exports →
      r !! "fileFormat" = Some (ArgString "GeoTIFF")
      ∧ r !! "folder" = Some (ArgString "GEO874_2023FA")
      ∧ r !! "fileNamePrefix" = Some (ArgString "mod11a2_detroit_monthly_median")
      ∧ r !! "region"
        = Some (ArgRegion
                  (Bounds
                     (Buffer
                        (Feature
                           (First (FeatureCollection "users/QiuYuean/City_of_Detroit_Boundary")))
                        10000)))
      ∧ r !! "scale" = Some (ArgNumber 1000)
      ∧ r !! "crs" = Some (ArgString "EPSG:4326")
      ∧ dom r = list_to_set
                  ["image"; "folder"; "description"; "fileNamePrefix";
                   "fileFormat"; "region"; "scale"; "crs"].
Proof.
  split; [reflexivity|].
  intros r Hr. apply list_elem_of_singleton in Hr. subst r.
  unfold export_monthly. generalize monthlyLST_month_bands. intros image.
  cbn [list_to_map foldr uncurry fst snd].
  repeat split; now simplify_map_eq.
Qed.

(** C6, as the specification has it, fails on the parameters: the request
    also names the image to export and the task, which are not among the
    parameters the specification lists. *)
Lemma export_request_names_more :
  ∃ r,
    @exports sample_platform = [r]
    ∧ r !! "description" = Some (ArgString "MOD11A2_detroit_monthly_median")
    ∧ r !! "image" = Some (ArgImage (@monthlyLST_month_bands sample_platform))
    ∧ ("description" ∉ listed_parameters)
    ∧ ("image" ∉ listed_parameters)
    ∧ dom r ≠ list_to_set listed_parameters.
Proof.
  exists (@export_monthly sample_platform). split; [reflexivity|].
  unfold export_monthly. generalize (@monthlyLST_month_bands sample_platform).
  intros image. cbn [list_to_map foldr uncurry fst snd].
  split; [now simplify_map_eq|]. split; [now simplify_map_eq|].
  assert (Hdescription : "description" ∉ listed_parameters).
  { unfold listed_parameters. rewrite !elem_of_cons, elem_of_nil.
    intros [H|[H|[H|[H|[H|[H|[]]]]]]]; discriminate. }
  split; [exact Hdescription|].
  split.
  { unfold listed_parameters. rewrite !elem_of_cons, elem_of_nil.
    intros [H|[H|[H|[H|[H|[H|[]]]]]]]; discriminate. }
  intros Hdom. apply Hdescription.
  apply (elem_of_list_to_set (C := gset string)). rewrite <- Hdom.
  apply elem_of_dom. exists (ArgString "MOD11A2_detroit_monthly_median").
  now simplify_map_eq.
Qed.

(** ** The quality mosaic *)

Section Mosaic.

(** The strict order of binary64 values. *)
Ltac compare_cases :=
  repeat match goal with
  | |- context [Z.compare ?a ?b] => destruct (Z.compare_spec a b)
  | |- context [Pos.compare_cont Eq ?a ?b] =>
      change (Pos.compare_cont Eq a b) with (Pos.compare a b);
      destruct (Pos.compare_spec a b)
  end.

Lemma SFltb_trans (x y z : spec_float) :
  SFltb x y = true → SFltb y z = true → SFltb x z = true.
Proof.
  unfold SFltb, SFcompare.
  destruct x as [[]|[]| |[] mx ex], y as [[]|[]| |[] my ey], z as [[]|[]| |[] mz ez];
    try discriminate; try reflexivity;
    compare_cases; cbn [CompOpp]; try discriminate; try reflexivity;
    intros; exfalso; lia.
Qed.

Lemma SFltb_irrefl (x : spec_float) : SFltb x x = false.
Proof.
  unfold SFltb, SFcompare.
  destruct x as [[]|[]| |[] mx ex]; try reflexivity;
    rewrite Z.compare_refl;
    change (Pos.compare_cont Eq mx mx) with (Pos.compare mx mx);
    now rewrite Pos.compare_refl.
Qed.

Lemma float_ltb_trans (x y z : float) :
  PrimFloat.ltb x y = true → PrimFloat.ltb y z = true → PrimFloat.ltb x z = true.
Proof. rewrite !ltb_spec. apply SFltb_trans. Qed.

Lemma float_ltb_irrefl (x : float) : PrimFloat.ltb x x = false.
Proof. rewrite ltb_spec. apply SFltb_irrefl. Qed.

(** Selection of the best observation. *)
Variables (band : string) (p : Image.Pixel).

Local Abbreviation real_quality := (ImageCollection.real_quality band p).
Local Abbreviation step := (ImageCollection.choose band p).

Lemma better_irrefl (img : Image.t) : ImageCollection.better band p img img = false.
Proof.
  unfold ImageCollection.better.
  destruct (ImageCollection.quality band p img) as [[n|x]|]; [|apply float_ltb_irrefl|reflexivity].
  apply Z.ltb_irrefl.
Qed.

Lemma better_trans (a b c : Image.t) :
  real_quality a → real_quality b → real_quality c →
  ImageCollection.better band p a b = true →
  ImageCollection.better band p b c = true →
  ImageCollection.better band p a c = true.
Proof.
  intros [x Ha] [y Hb] [z Hc]. unfold ImageCollection.better.
  rewrite Ha, Hb, Hc. apply float_ltb_trans.
Qed.

Lemma fold_best (l seen : list Image.t) (b : Image.t) :
  Forall real_quality (seen ++ l) →
  b ∈ seen →
  (∀ x, x ∈ seen → ImageCollection.better band p b x = false) →
  ∃ sel,
    foldl step (Some b) l = Some sel
    ∧ sel ∈ seen ++ l
    ∧ ∀ x, x ∈ seen ++ l → ImageCollection.better band p sel x = false.
Proof.
  revert seen b. induction l as [|img l IH]; intros seen b Hreal Hb Hbest.
  - exists b. rewrite app_nil_r. auto.
  - replace (seen ++ img :: l) with ((seen ++ [img]) ++ l) in * by now rewrite <- app_assoc.
    cbn [foldl ImageCollection.choose].
    assert (Hreal' : ∀ x, x ∈ seen ++ [img] → real_quality x).
    { intros x Hx. rewrite Forall_forall in Hreal. apply Hreal.
      apply elem_of_app. now left. }
    destruct (ImageCollection.better band p b img) eqn:Hcmp.
    + apply IH; [exact Hreal | apply elem_of_app; right; left |].
      intros x Hx. apply elem_of_app in Hx as [Hx|Hx].
      * destruct (ImageCollection.better band p img x) eqn:Hix; [|reflexivity].
        rewrite <- (Hbest x Hx). symmetry.
        apply (better_trans b img x); auto.
        -- apply Hreal', elem_of_app; now left.
        -- apply Hreal', elem_of_app; right; left.
        -- apply Hreal', elem_of_app; now left.
      * apply list_elem_of_singleton in Hx as ->. apply better_irrefl.
    + apply IH; [exact Hreal | apply elem_of_app; now left |].
      intros x Hx. apply elem_of_app in Hx as [Hx|Hx]; [now apply Hbest|].
      now apply list_elem_of_singleton in Hx as ->.
Qed.

Lemma pick_spec (c : list Image.t) :
  Forall real_quality c →
  match ImageCollection.pick band p c with
  | None => ∀ x, x ∈ c → ImageCollection.observed p x = false
  | Some sel =>
      sel ∈ c
      ∧ ImageCollection.observed p sel = true
      ∧ ∀ x, x ∈ c → ImageCollection.observed p x = true →
             ImageCollection.better band p sel x = false
  end.
Proof.
  intros Hreal. unfold ImageCollection.pick.
  match goal with |- context [foldl _ None ?l] => set (cands := l) end.
  assert (Hcand : ∀ x, x ∈ c → ImageCollection.observed p x = true → x ∈ cands).
  { intros x Hx Hobs. apply list_elem_of_filter. split; [|exact Hx].
    split; [exact Hobs|]. rewrite Forall_forall in Hreal.
    destruct (Hreal x Hx) as [v Hv]. rewrite Hv. now eexists. }
  assert (Hsub : ∀ x, x ∈ cands → x ∈ c ∧ ImageCollection.observed p x = true).
  { intros x Hx. apply list_elem_of_filter in Hx as [[Hobs _] Hx]. auto. }
  clearbody cands.
  destruct cands as [|img l].
  - cbn [foldl]. intros x Hx.
    destruct (ImageCollection.observed p x) eqn:Hobs; [|reflexivity].
    specialize (Hcand x Hx Hobs). inversion Hcand.
  - cbn [foldl ImageCollection.choose].
    destruct (fold_best l [img] img) as (sel & Hfold & Hin & Hbest).
    + apply Forall_forall. intros x Hx. rewrite Forall_forall in Hreal.
      apply Hreal. now apply Hsub.
    + left.
    + intros x Hx. apply list_elem_of_singleton in Hx as ->. apply better_irrefl.
    + rewrite Hfold. destruct (Hsub sel Hin) as [Hc Hobs].
      split; [exact Hc|]. split; [exact Hobs|].
      intros x Hx Hox. apply Hbest. now apply Hcand.
Qed.

Lemma find_band_mosaic (c : list Image.t) (name : string) (bs : list Image.Band) :
  Image.find_band name
    ((λ b : Image.Band, (b.1, ImageCollection.mosaic_band band c b.1 b.2)) <$> bs)
  = ImageCollection.mosaic_band band c name <$> Image.find_band name bs.
Proof.
  induction bs as [|[n d] bs IH]; [reflexivity|].
  csimpl. case_decide; [now subst|exact IH].
Qed.

Lemma sample_mosaic_band (c : list Image.t) (name : string) (like : Image.BandData) :
  Image.sample (ImageCollection.mosaic_band band c name like) p
  = match ImageCollection.pick band p c ≫= (λ img, Image.find_band name (Image.bands img)) with
    | Some d => if Image.same_kind like d then Image.sample d p else None
    | None => None
    end.
Proof.
  destruct like as [f|f]; cbn [ImageCollection.mosaic_band Image.sample];
    destruct (ImageCollection.pick band p c ≫= _) as [[g|g]|]; try reflexivity.
Qed.

End Mosaic.

(** ** The time band *)

Section TimeBand.

Lemma addVariablesTime_unfold (image : Image.t) (ts : Number.t) :
  Image.getNumber image "system:time_start" = Some ts →
  "millis" ∉ Image.bandNames image →
  addVariablesTime image
  = Some (Image.mk (Image.bands image ++ [("millis", millis_band ts)])
            (Image.properties image)).
Proof.
  intros Hts Hfresh. unfold addVariablesTime. rewrite Hts.
  cbn [mbind option_bind]. unfold Image.rename, Image.constant.
  cbn [length Image.bands]. rewrite decide_True by reflexivity.
  cbn [fmap option_fmap option_map mbind option_bind].
  unfold Image.addBands, Image.toFloat, Image.add_band.
  cbn [Image.bands Image.properties foldl fmap list_fmap zip zip_with prod_map fst snd id].
  rewrite decide_False by exact Hfresh. reflexivity.
Qed.

Lemma sample_millis_band (ts : Number.t) (p : Image.Pixel) :
  Image.sample (millis_band ts) p = Some (Dbl (Image.round32 (Number.to_float ts))).
Proof. now destruct ts. Qed.

Lemma addVariablesTime_inv (image out : Image.t) :
  addVariablesTime image = Some out →
  "millis" ∉ Image.bandNames image →
  ∃ ts,
    Image.getNumber image "system:time_start" = Some ts
    ∧ out = Image.mk (Image.bands image ++ [("millis", millis_band ts)])
              (Image.properties image).
Proof.
  intros Hrun Hfresh.
  destruct (Image.getNumber image "system:time_start") as [ts|] eqn:Hts.
  - exists ts. split; [reflexivity|].
    rewrite (addVariablesTime_unfold _ _ Hts Hfresh) in Hrun. now injection Hrun.
  - unfold addVariablesTime in Hrun. now rewrite Hts in Hrun.
Qed.

Lemma quality_millis (image : Image.t) (ts : Number.t) (p : Image.Pixel) :
  "millis" ∉ Image.bandNames image →
  ImageCollection.quality "millis" p
    (Image.mk (Image.bands image ++ [("millis", millis_band ts)]) (Image.properties image))
  = Some (Dbl (Image.round32 (Number.to_float ts))).
Proof.
  intros Hfresh. unfold ImageCollection.quality, Image.value_at. cbn [Image.bands].
  rewrite find_band_app, find_band_None by exact Hfresh.
  cbn [Image.find_band]. rewrite decide_True by reflexivity.
  cbn [fmap option_fmap option_map mjoin option_join].
  apply sample_millis_band.
Qed.

End TimeBand.

Section Composite.

Lemma stamped_shape (masked stamped : list Image.t) :
  ImageCollection.map addVariablesTime masked = Some stamped →
  Forall (λ img, "millis" ∉ Image.bandNames img) masked →
  Forall2
    (λ img out,
       ("millis" ∉ Image.bandNames img)
       ∧ ∃ ts,
           Image.getNumber img "system:time_start" = Some ts
           ∧ out = Image.mk (Image.bands img ++ [("millis", millis_band ts)])
                     (Image.properties img))
    masked stamped.
Proof.
  unfold ImageCollection.map. intros Hmap Hfresh. apply mapM_Some in Hmap.
  induction Hmap as [|img out masked stamped Hrun Hrest IH]; [constructor|].
  inversion Hfresh as [|? ? Hhead Htail]; subst.
  constructor; [|now apply IH].
  split; [exact Hhead|]. now apply addVariablesTime_inv.
Qed.

Lemma stamped_real_quality (masked stamped : list Image.t) (p : Image.Pixel) :
  ImageCollection.map addVariablesTime masked = Some stamped →
  Forall (λ img, "millis" ∉ Image.bandNames img) masked →
  Forall (ImageCollection.real_quality "millis" p) stamped.
Proof.
  intros Hmap Hfresh. pose proof (stamped_shape _ _ Hmap Hfresh) as Hshape.
  clear Hmap Hfresh.
  induction Hshape as [|img out masked stamped (Hfresh & ts & Hts & ->) Hrest IH];
    constructor; [|exact IH].
  eexists. now apply quality_millis.
Qed.

End Composite.

(** The quality mosaic on the time band.  [addVariablesTime] gives every
    image a band [millis], valid at every pixel, whose value is the image's
    [system:time_start] rounded to single precision; the other bands and the
    metadata are kept.  The composite the script asks for is the quality
    mosaic of the collection on that band.  At a pixel where no image offers
    an observation the composite is masked; elsewhere it shows, band by band,
    the samples of one image of the collection that offers an observation
    there and whose [millis] is exceeded by that of no other such image.
    When rounding keeps the time stamps of the collection in strict order
    ([keeps_order]), that image is the most recent one offering an
    observation at the pixel. *)
Theorem recent_value_composite (masked stamped : list Image.t) :
  ImageCollection.map addVariablesTime masked = Some stamped →
  Forall (λ img, "millis" ∉ Image.bandNames img) masked →
  (∀ platform : Platform,
     @modisLST platform = Some stamped →
     @recentValueComposite platform = Some (ImageCollection.qualityMosaic stamped "millis"))
  ∧ (∀ i img, masked !! i = Some img →
       ∃ out ts,
         stamped !! i = Some out
         ∧ Image.getNumber img "system:time_start" = Some ts
         ∧ Image.properties out = Image.properties img
         ∧ Image.bandNames out = Image.bandNames img ++ ["millis"]
         ∧ (∀ name d,
              Image.find_band name (Image.bands img) = Some d →
              Image.find_band name (Image.bands out) = Some d)
         ∧ ∀ p, Image.value_at out "millis" p
                = Some (Some (Dbl (Image.round32 (Number.to_float ts)))))
  ∧ ∀ p,
      ((∀ x, x ∈ stamped → ImageCollection.observed p x = false)
       ∧ ∀ name,
           mjoin (Image.value_at (ImageCollection.qualityMosaic stamped "millis") name p)
           = None)
      ∨ ∃ sel,
          sel ∈ stamped
          ∧ ImageCollection.observed p sel = true
          ∧ (∀ name first dh ds,
               head stamped = Some first →
               Image.find_band name (Image.bands first) = Some dh →
               Image.find_band name (Image.bands sel) = Some ds →
               Image.same_kind dh ds = true →
               Image.value_at (ImageCollection.qualityMosaic stamped "millis") name p
               = Some (Image.sample ds p))
          ∧ (∀ x, x ∈ stamped → ImageCollection.observed p x = true →
                  ImageCollection.better "millis" p sel x = false)
          ∧ (Forall
               (λ x, Forall (λ y, ImageCollection.keeps_order "millis" p x y = true) stamped)
               stamped →
             ∀ x tx ts,
               x ∈ stamped → ImageCollection.observed p x = true →
               ImageCollection.time_start x = Some tx →
               ImageCollection.time_start sel = Some ts →
               tx ≤ ts).
Proof.
  intros Hmap Hfresh.
  pose proof (stamped_shape _ _ Hmap Hfresh) as Hshape.
  split.
  { intros platform Hcoll. unfold recentValueComposite. now rewrite Hcoll. }
  split.
  { intros i img Hi.
    destruct (Forall2_lookup_l _ _ _ _ _ Hshape Hi) as (out & Hout & Hnew & ts & Hts & ->).
    exists (Image.mk (Image.bands img ++ [("millis", millis_band ts)]) (Image.properties img)), ts.
    split; [exact Hout|]. split; [exact Hts|]. split; [reflexivity|].
    split; [unfold Image.bandNames; cbn [Image.bands]; now rewrite fmap_app|].
    split.
    - intros name d Hd. cbn [Image.bands]. now rewrite find_band_app, Hd.
    - intros p. pose proof (quality_millis img ts p Hnew) as Hq.
      unfold ImageCollection.quality in Hq. unfold Image.value_at in *.
      cbn [Image.bands] in *.
      destruct (Image.find_band "millis" _) as [d|]; [|discriminate].
      cbn [fmap option_fmap option_map mjoin option_join] in *. now rewrite Hq. }
  intros p.
  pose proof (pick_spec "millis" p stamped (stamped_real_quality _ _ p Hmap Hfresh)) as Hpick.
  destruct (ImageCollection.pick "millis" p stamped) as [sel|] eqn:Hsel.
  - right. destruct Hpick as (Hin & Hobs & Hbest). exists sel.
    split; [exact Hin|]. split; [exact Hobs|]. split.
    { intros name first dh ds Hfirst Hdh Hds Hkind.
      unfold ImageCollection.qualityMosaic, Image.value_at. rewrite Hfirst.
      cbn [from_option Image.bands].
      rewrite find_band_mosaic, Hdh. cbn [fmap option_fmap option_map]. f_equal.
      rewrite sample_mosaic_band, Hsel. cbn [mbind option_bind].
      now rewrite Hds, Hkind. }
    split; [exact Hbest|].
    intros Horder x tx ts Hx Hox Htx Hts.
    destruct (Z.le_gt_cases tx ts) as [Hle|Hgt]; [exact Hle|].
    rewrite Forall_forall in Horder. specialize (Horder sel Hin).
    rewrite Forall_forall in Horder. specialize (Horder x Hx).
    unfold ImageCollection.keeps_order in Horder.
    rewrite Hts, Htx, (Hbest x Hx Hox) in Horder.
    apply Z.ltb_lt in Hgt. rewrite Hgt in Horder. discriminate.
  - left. split; [exact Hpick|].
    intros name. unfold ImageCollection.qualityMosaic, Image.value_at.
    cbn [Image.bands]. rewrite find_band_mosaic.
    destruct (Image.find_band name _) as [d|]; [|reflexivity].
    cbn [fmap option_fmap option_map mjoin option_join].
    now rewrite sample_mosaic_band, Hsel.
Qed.

(** ** The properties on the example catalogue *)

Lemma scaleModisLst_celsius_witness :
  ∃ out,
    scaleModisLst granule_apr07 = Some out
    ∧ Image.bandNames out = Image.bandNames granule_apr07
    ∧ Image.properties out = Image.properties granule_apr07
    ∧ ∀ p, Image.value_at out "LST_Day_1km" p
           = Some (celsius <$> Image.sample (Image.IntBand (λ p, Some (15000 + p.1))) p).
Proof. apply scaleModisLst_celsius. reflexivity. Defined.

Lemma scaleModisLst_frame_witness :
  ∃ out,
    scaleModisLst granule_apr07 = Some out
    ∧ Image.bandNames out = Image.bandNames granule_apr07
    ∧ (∀ name, name ≠ "LST_Day_1km" →
         Image.find_band name (Image.bands out)
         = Image.find_band name (Image.bands granule_apr07))
    ∧ Image.select out ["QC_Day"] = Image.select granule_apr07 ["QC_Day"].
Proof.
  apply (scaleModisLst_frame granule_apr07 (Image.IntBand (λ p, Some (15000 + p.1)))).
  reflexivity.
Defined.

Lemma maskModisLst_keeps_witness :
  ∃ out,
    maskModisLst granule_apr07 = Some out
    ∧ Image.bandNames out = Image.bandNames granule_apr07 ++ ["qaMask"]
    ∧ Image.value_at out "LST_Day_1km" (0, 1) = Some (Some (Int 15000))
    ∧ Image.value_at out "LST_Day_1km" (0, 2) = Some None.
Proof.
  destruct (maskModisLst_keeps granule_apr07 (λ p, Some p.2))
    as (out & Hrun & Hnames & Hpix & _).
  - reflexivity.
  - eapply (@bool_decide_unpack _ (not_dec _)). vm_compute. exact I.
  - exists out. split; [exact Hrun|]. split; [exact Hnames|].
    split.
    + exact (proj2 (Hpix (0, 1)) "LST_Day_1km" _ eq_refl).
    + exact (proj2 (Hpix (0, 2)) "LST_Day_1km" _ eq_refl).
Defined.

Lemma transforms_stateless_witness :
  ∃ first second,
    Js.each 2 (Js.Function Js.MaskModisLst)
      [Js.EeImage (Some granule_apr07); Js.EeImage (Some granule_apr15);
       Js.EeImage (Some granule_apr07)]
      Js.script_globals
    = (Js.Return [first; second; first], Js.script_globals)
    ∧ first = Js.EeImage (maskModisLst granule_apr07).
Proof.
  exists (Js.EeImage (Some granule_apr07 ≫= maskModisLst)),
    (Js.EeImage (Some granule_apr15 ≫= maskModisLst)).
  split; [|reflexivity].
  apply (transforms_stateless Js.MaskModisLst maskModisLst 0 Js.script_globals
           [Some granule_apr07; Some granule_apr15; Some granule_apr07]).
  - right. left.
  - reflexivity.
Defined.

Lemma recent_value_composite_witness :
  (∃ img out ts,
     sample_masked !! 2%nat = Some img
     ∧ sample_stamped !! 2%nat = Some out
     ∧ Image.getNumber img "system:time_start" = Some ts
     ∧ ∀ p, Image.value_at out "millis" p
            = Some (Some (Dbl (Image.round32 (Number.to_float ts)))))
  ∧ ∃ sel,
      sel ∈ sample_stamped
      ∧ ImageCollection.observed (1, 0) sel = true
      ∧ ∀ x tx ts,
          x ∈ sample_stamped → ImageCollection.observed (1, 0) x = true →
          ImageCollection.time_start x = Some tx →
          ImageCollection.time_start sel = Some ts →
          tx ≤ ts.
Proof.
  destruct (recent_value_composite sample_masked sample_stamped) as (_ & Hband & Hpixel).
  - reflexivity.
  - eapply (@bool_decide_unpack _ (Forall_dec _ _)). vm_compute. exact I.
  - split.
    + destruct (sample_masked !! 2%nat) as [img|] eqn:Himg; [|discriminate].
      destruct (Hband 2%nat img Himg) as (out & ts & Hout & Hts & _ & _ & _ & Hval).
      exists img, out, ts. auto.
    + destruct (Hpixel (1, 0)) as [[Hnone _]|(sel & Hin & Hobs & _ & _ & Hrecent)].
      * destruct (sample_stamped !! 0%nat) as [first|] eqn:Hfirst; [|discriminate].
        assert (Hseen : ImageCollection.observed (1, 0) first = true).
        { injection Hfirst as <-. vm_compute. reflexivity. }
        rewrite (Hnone first) in Hseen; [discriminate|].
        apply list_elem_of_lookup. now exists 0%nat.
      * exists sel. split; [exact Hin|]. split; [exact Hobs|].
        apply Hrecent.
        eapply (@bool_decide_unpack _ (Forall_dec _ _)). vm_compute. exact I.
Defined.


(** * Further properties of the script's functions *)

(** ** Fields of the bit-field helper *)

Section Fields.

Lemma bit_field_adjacent (v a b c : Z) :
  0 ≤ a ≤ b → b < c →
  bit_field v a c = bit_field v a b + 2 ^ (b - a + 1) * bit_field v (b + 1) c.
Proof.
  intros Hab Hbc. unfold bit_field.
  replace (c - a + 1) with ((b - a + 1) + (c - (b + 1) + 1)) by lia.
  rewrite Z.pow_add_r by lia.
  rewrite Z.rem_mul_r by (try apply Z.pow_nonzero; try apply Z.pow_pos_nonneg; lia).
  do 3 f_equal.
  rewrite Z.div_div by (try apply Z.pow_nonzero; try apply Z.pow_pos_nonneg; lia).
  rewrite <- Z.pow_add_r by lia. f_equal. f_equal. lia.
Qed.

Lemma integer_sample (img : Image.t) (name : string) (p : Image.Pixel) (v : Number.t) :
  Image.integer_bands img →
  Image.value_at img name p = Some (Some v) →
  ∃ z, v = Int z.
Proof.
  unfold Image.integer_bands, Image.value_at. intros Hint.
  induction Hint as [|[n d] bs [f Hd] Hrest IH]; [discriminate|].
  cbn [Image.find_band]. case_decide; [|exact IH].
  simpl in Hd. subst d. cbn. destruct (f p) as [z|]; [|discriminate].
  intros [= <-]. now exists z.
Qed.

End Fields.

(** X1.  Adjacent fields concatenate: for [0 <= a <= b < c], the field of
    bits [a..c] is the field of bits [a..b] plus [2^(b-a+1)] times the field
    of bits [b+1..c], on every integer. *)
Theorem bitwiseExtract_adjacent (value a b c : Z) :
  0 ≤ a ≤ b →
  b < c →
  ∃ low high whole,
    bitwiseExtract (Int value) (Int a) (Int b) = Some (Int low)
    ∧ bitwiseExtract (Int value) (Int (b + 1)) (Int c) = Some (Int high)
    ∧ bitwiseExtract (Int value) (Int a) (Int c) = Some (Int whole)
    ∧ whole = low + 2 ^ (b - a + 1) * high.
Proof.
  intros Hab Hbc.
  exists (extract_formula value a b), (extract_formula value (b + 1) c),
    (extract_formula value a c).
  rewrite !bitwiseExtract_number. do 3 (split; [reflexivity|]).
  rewrite !extract_formula_field by lia. now apply bit_field_adjacent.
Qed.

Lemma bitwiseExtract_adjacent_witness :
  ∃ low high whole,
    bitwiseExtract (Int 183) (Int 0) (Int 3) = Some (Int low)
    ∧ bitwiseExtract (Int 183) (Int (3 + 1)) (Int 7) = Some (Int high)
    ∧ bitwiseExtract (Int 183) (Int 0) (Int 7) = Some (Int whole)
    ∧ whole = low + 2 ^ (3 - 0 + 1) * high.
Proof. apply (bitwiseExtract_adjacent 183 0 3 7); lia. Defined.

(** X2.  The four two-bit flags of a quality byte (bits 0-1, 2-3, 4-5 and
    6-7, as [maskModisLst] lists them) write the byte back:
    [qc = f01 + 4 f23 + 16 f45 + 64 f67]. *)
Theorem quality_byte_fields (qc : Z) :
  0 ≤ qc < 256 →
  ∃ f01 f23 f45 f67,
    bitwiseExtract (Int qc) (Int 0) (Int 1) = Some (Int f01)
    ∧ bitwiseExtract (Int qc) (Int 2) (Int 3) = Some (Int f23)
    ∧ bitwiseExtract (Int qc) (Int 4) (Int 5) = Some (Int f45)
    ∧ bitwiseExtract (Int qc) (Int 6) (Int 7) = Some (Int f67)
    ∧ qc = f01 + 4 * f23 + 16 * f45 + 64 * f67.
Proof.
  intros Hqc.
  exists (extract_formula qc 0 1), (extract_formula qc 2 3),
    (extract_formula qc 4 5), (extract_formula qc 6 7).
  rewrite !bitwiseExtract_number. do 4 (split; [reflexivity|]).
  rewrite !extract_formula_field by lia. unfold bit_field.
  change (2 ^ 0) with 1. change (2 ^ 2) with 4. change (2 ^ 4) with 16.
  change (2 ^ 6) with 64. change (2 ^ (1 - 0 + 1)) with 4.
  change (2 ^ (3 - 2 + 1)) with 4. change (2 ^ (5 - 4 + 1)) with 4.
  change (2 ^ (7 - 6 + 1)) with 4.
  Z.div_mod_to_equations. lia.
Qed.

Lemma quality_byte_fields_witness :
  ∃ f01 f23 f45 f67,
    bitwiseExtract (Int 129) (Int 0) (Int 1) = Some (Int f01)
    ∧ bitwiseExtract (Int 129) (Int 2) (Int 3) = Some (Int f23)
    ∧ bitwiseExtract (Int 129) (Int 4) (Int 5) = Some (Int f45)
    ∧ bitwiseExtract (Int 129) (Int 6) (Int 7) = Some (Int f67)
    ∧ 129 = f01 + 4 * f23 + 16 * f45 + 64 * f67.
Proof. apply (quality_byte_fields 129). lia. Defined.

(** X3.  On an image whose bands are integer bands and for
    [0 <= fromBit <= toBit], [bitwiseExtract] keeps the band names and the
    mask: a masked pixel stays masked, and a valid pixel gets an integer in
    [0 .. 2^(toBit - fromBit + 1) - 1]. *)
Theorem bitwiseExtract_image_bounds (image : Image.t) (fromBit toBit : Z) :
  Image.integer_bands image →
  0 ≤ fromBit ≤ toBit →
  ∃ out,
    bitwiseExtract image (Int fromBit) (Int toBit) = Some out
    ∧ Image.bandNames out = Image.bandNames image
    ∧ ∀ name p,
        match Image.value_at image name p with
        | None => Image.value_at out name p = None
        | Some None => Image.value_at out name p = Some None
        | Some (Some v) =>
            ∃ r, Image.value_at out name p = Some (Some (Int r))
                 ∧ 0 ≤ r < 2 ^ (toBit - fromBit + 1)
        end.
Proof.
  intros Hint Hbits.
  destruct (bitwiseExtract_image image fromBit toBit Hint) as (out & Hrun & Hnames & Hval).
  exists out. split; [exact Hrun|]. split; [exact Hnames|].
  intros name p. rewrite Hval.
  destruct (Image.value_at image name p) as [[v|]|] eqn:Hv; [|reflexivity..].
  destruct (integer_sample image name p v Hint Hv) as [z ->].
  exists (extract_formula z fromBit toBit). split.
  - cbn [fmap option_fmap option_map mbind option_bind].
    now rewrite bitwiseExtract_number.
  - rewrite extract_formula_field by lia. apply bit_field_bounds. lia.
Qed.

Lemma bitwiseExtract_image_bounds_witness :
  ∃ out,
    bitwiseExtract (Image.mk [("QC_Day", Image.IntBand (λ p, Some p.2))] ∅) (Int 6) (Int 7)
      = Some out
    ∧ ∃ r, Image.value_at out "QC_Day" (0, 129) = Some (Some (Int r)) ∧ 0 ≤ r < 2 ^ (7 - 6 + 1).
Proof.
  destruct (bitwiseExtract_image_bounds
              (Image.mk [("QC_Day", Image.IntBand (λ p, Some p.2))] ∅) 6 7)
    as (out & Hrun & _ & Hval).
  - repeat constructor. now eexists.
  - lia.
  - exists out. split; [exact Hrun|]. exact (Hval "QC_Day" (0, 129)).
Defined.

(** ** What the transforms need and what they keep *)

Section Shapes.

Lemma add_band_append (bs : list Image.Band) (b : Image.Band) :
  ∃ n, Image.add_band false bs b = bs ++ [(n, b.2)].
Proof.
  unfold Image.add_band. destruct b as [n d]. case_decide.
  - eexists. reflexivity.
  - exists n. reflexivity.
Qed.

Lemma scaleModisLst_missing (image : Image.t) :
  Image.find_band "LST_Day_1km" (Image.bands image) = None →
  scaleModisLst image = None.
Proof. intros Hf. unfold scaleModisLst, Image.select. csimpl. now rewrite Hf. Qed.

Lemma maskModisLst_general (image : Image.t) (q : Image.Pixel → option Z) :
  Image.find_band "QC_Day" (Image.bands image) = Some (Image.IntBand q) →
  maskModisLst image
  = Some (Image.mk
            ((λ x : Image.Band, (x.1, Image.mask_band x.2 (quality_mask q)))
               <$> Image.add_band false (Image.bands image) ("qaMask", quality_mask q))
            (Image.properties image)).
Proof.
  intros Hq. unfold maskModisLst.
  rewrite (select_one _ _ _ Hq).
  cbn -[Z.shiftr Z.land Z.leb Z.eqb Z.shiftl].
  unfold Image.rename. cbn [length Image.bands]. rewrite decide_True by reflexivity.
  cbn [mbind option_bind]. unfold Image.addBands, Image.updateMask.
  cbn [foldl Image.bands Image.properties fst snd zip zip_with fmap list_fmap].
  reflexivity.
Qed.

Lemma maskModisLst_missing (image : Image.t) :
  Image.find_band "QC_Day" (Image.bands image) = None →
  maskModisLst image = None.
Proof. intros Hf. unfold maskModisLst, Image.select. csimpl. now rewrite Hf. Qed.

Lemma maskModisLst_double (image : Image.t) (f : Image.Pixel → option float) :
  Image.find_band "QC_Day" (Image.bands image) = Some (Image.DblBand f) →
  maskModisLst image = None.
Proof. intros Hf. unfold maskModisLst. now rewrite (select_one _ _ _ Hf). Qed.

Lemma addVariablesTime_general (image : Image.t) (ts : Number.t) :
  Image.getNumber image "system:time_start" = Some ts →
  addVariablesTime image
  = Some (Image.mk (Image.add_band false (Image.bands image) ("millis", millis_band ts))
            (Image.properties image)).
Proof.
  intros Hts. unfold addVariablesTime. rewrite Hts.
  cbn [mbind option_bind]. unfold Image.rename, Image.constant.
  cbn [length Image.bands]. rewrite decide_True by reflexivity.
  reflexivity.
Qed.

Lemma addVariablesTime_missing (image : Image.t) :
  Image.getNumber image "system:time_start" = None →
  addVariablesTime image = None.
Proof. intros Hts. unfold addVariablesTime. now rewrite Hts. Qed.

End Shapes.

(** X4.  Each transform is rejected exactly when the image lacks what it
    reads: [scaleModisLst] the band [LST_Day_1km], [maskModisLst] an integer
    band [QC_Day] (a missing band and a band of doubles are both rejected),
    [addVariablesTime] a number under [system:time_start]. *)
Theorem transforms_rejected_iff (image : Image.t) :
  (scaleModisLst image = None
   ↔ Image.find_band "LST_Day_1km" (Image.bands image) = None)
  ∧ (maskModisLst image = None
     ↔ ¬ ∃ q, Image.find_band "QC_Day" (Image.bands image) = Some (Image.IntBand q))
  ∧ (addVariablesTime image = None
     ↔ Image.getNumber image "system:time_start" = None).
Proof.
  split; [|split].
  - split; [|apply scaleModisLst_missing].
    destruct (Image.find_band "LST_Day_1km" (Image.bands image)) as [d|] eqn:Hf;
      [|reflexivity].
    now rewrite (scaleModisLst_unfold _ _ Hf).
  - destruct (Image.find_band "QC_Day" (Image.bands image)) as [[q|f]|] eqn:Hf.
    + rewrite (maskModisLst_general _ _ Hf). split; [discriminate|].
      intros Hno. exfalso. apply Hno. now exists q.
    + rewrite (maskModisLst_double _ _ Hf). split; [|reflexivity].
      intros _ [q Hq]. discriminate.
    + rewrite (maskModisLst_missing _ Hf). split; [|reflexivity].
      intros _ [q Hq]. discriminate.
  - split; [|apply addVariablesTime_missing].
    destruct (Image.getNumber image "system:time_start") as [ts|] eqn:Hts;
      [|reflexivity].
    now rewrite (addVariablesTime_general _ _ Hts).
Qed.

(** X5.  A transform that accepts an image keeps its metadata and its
    bands' names in place: the names of the result are the names of the
    input followed by at most one new name. *)
Theorem transforms_append (f : Image.t → option Image.t) (image out : Image.t) :
  f ∈ transforms →
  f image = Some out →
  Image.properties out = Image.properties image
  ∧ ∃ added,
      Image.bandNames out = Image.bandNames image ++ added
      ∧ (length added ≤ 1)%nat.
Proof.
  unfold transforms. rewrite !elem_of_cons, elem_of_nil.
  intros [->|[->|[->|[]]]].
  - destruct (Image.find_band "LST_Day_1km" (Image.bands image)) as [d|] eqn:Hf.
    + rewrite (scaleModisLst_unfold _ _ Hf). intros [= <-].
      split; [reflexivity|]. exists [].
      rewrite app_nil_r. split; [apply replace_names|simpl; lia].
    + now rewrite (scaleModisLst_missing _ Hf).
  - destruct (Image.find_band "QC_Day" (Image.bands image)) as [[q|g]|] eqn:Hf.
    + rewrite (maskModisLst_general _ _ Hf). intros [= <-].
      split; [reflexivity|].
      destruct (add_band_append (Image.bands image) ("qaMask", quality_mask q)) as [n Hn].
      exists [n]. split; [|simpl; lia].
      unfold Image.bandNames. cbn [Image.bands]. rewrite Hn.
      now rewrite <- list_fmap_compose, fmap_app.
    + now rewrite (maskModisLst_double _ _ Hf).
    + now rewrite (maskModisLst_missing _ Hf).
  - destruct (Image.getNumber image "system:time_start") as [ts|] eqn:Hts.
    + rewrite (addVariablesTime_general _ _ Hts). intros [= <-].
      split; [reflexivity|].
      destruct (add_band_append (Image.bands image) ("millis", millis_band ts)) as [n Hn].
      exists [n]. split; [|simpl; lia].
      unfold Image.bandNames. cbn [Image.bands]. rewrite Hn.
      now rewrite fmap_app.
    + now rewrite (addVariablesTime_missing _ Hts).
Qed.

Lemma transforms_append_witness :
  ∃ out,
    maskModisLst granule_apr07 = Some out
    ∧ Image.properties out = Image.properties granule_apr07
    ∧ ∃ added,
        Image.bandNames out = Image.bandNames granule_apr07 ++ added
        ∧ (length added ≤ 1)%nat.
Proof.
  destruct (maskModisLst granule_apr07) as [out|] eqn:Hout; [|discriminate].
  exists out. split; [reflexivity|].
  apply (transforms_append maskModisLst granule_apr07 out); [|exact Hout].
  right. left.
Defined.

(** ** How the transforms compose *)

Section Compose.

Variables (image : Image.t) (d : Image.BandData) (q : Image.Pixel → option Z).
Hypothesis Hlst : Image.find_band "LST_Day_1km" (Image.bands image) = Some d.
Hypothesis Hqc : Image.find_band "QC_Day" (Image.bands image) = Some (Image.IntBand q).
Hypothesis Hfresh : "qaMask" ∉ Image.bandNames image.

Local Abbreviation scaled_band :=
  (Image.band_arith Z.add PrimFloat.add (Dbl (-273.15))
     (Image.band_arith Z.mul PrimFloat.mul (Dbl 0.02) d)).

Local Abbreviation scaled_bands :=
  ((λ x : Image.Band,
      if decide (x.1 = "LST_Day_1km") then ("LST_Day_1km", scaled_band) else x)
     <$> Image.bands image).

Local Abbreviation masking :=
  (λ x : Image.Band, (x.1, Image.mask_band x.2 (quality_mask q))).

(** Scaling, then masking. *)
Lemma scale_then_mask :
  scaleModisLst image ≫= maskModisLst
  = Some (Image.mk (masking <$> (scaled_bands ++ [("qaMask", quality_mask q)]))
            (Image.properties image)).
Proof.
  rewrite (scaleModisLst_unfold _ _ Hlst). cbn [mbind option_bind].
  rewrite (maskModisLst_unfold _ q); [reflexivity| |].
  - cbn [Image.bands]. rewrite find_band_replace_gen.
    now rewrite decide_False by discriminate.
  - unfold Image.bandNames. cbn [Image.bands]. now rewrite replace_names.
Qed.

(** Masking, then scaling. *)
Lemma mask_then_scale :
  maskModisLst image ≫= scaleModisLst
  = Some (Image.mk
            ((λ x : Image.Band,
                if decide (x.1 = "LST_Day_1km")
                then ("LST_Day_1km",
                      Image.band_arith Z.add PrimFloat.add (Dbl (-273.15))
                        (Image.band_arith Z.mul PrimFloat.mul (Dbl 0.02)
                           (Image.mask_band d (quality_mask q))))
                else x)
               <$> (masking <$> (Image.bands image ++ [("qaMask", quality_mask q)])))
            (Image.properties image)).
Proof.
  rewrite (maskModisLst_unfold _ _ Hqc Hfresh). cbn [mbind option_bind].
  rewrite (scaleModisLst_unfold _ (Image.mask_band d (quality_mask q))); [reflexivity|].
  cbn [Image.bands].
  rewrite (find_band_fmap (λ x, Image.mask_band x (quality_mask q))), find_band_app, Hlst.
  reflexivity.
Qed.

Lemma sample_scaled_masked (p : Image.Pixel) :
  Image.sample (Image.mask_band scaled_band (quality_mask q)) p
  = if from_option qa_keep false (q p) then celsius <$> Image.sample d p else None.
Proof. now rewrite sample_mask_band, keep_quality_mask, scale_band_sample. Qed.

Lemma sample_masked_scaled (p : Image.Pixel) :
  Image.sample
    (Image.band_arith Z.add PrimFloat.add (Dbl (-273.15))
       (Image.band_arith Z.mul PrimFloat.mul (Dbl 0.02)
          (Image.mask_band d (quality_mask q)))) p
  = if from_option qa_keep false (q p) then celsius <$> Image.sample d p else None.
Proof.
  rewrite scale_band_sample, sample_mask_band, keep_quality_mask.
  now destruct (from_option qa_keep false (q p)).
Qed.

Lemma commute_values (name : string) (p : Image.Pixel) :
  (λ x, Image.sample x p)
    <$> Image.find_band name (masking <$> (scaled_bands ++ [("qaMask", quality_mask q)]))
  = (λ x, Image.sample x p)
      <$> Image.find_band name
            ((λ x : Image.Band,
                if decide (x.1 = "LST_Day_1km")
                then ("LST_Day_1km",
                      Image.band_arith Z.add PrimFloat.add (Dbl (-273.15))
                        (Image.band_arith Z.mul PrimFloat.mul (Dbl 0.02)
                           (Image.mask_band d (quality_mask q))))
                else x)
               <$> (masking <$> (Image.bands image ++ [("qaMask", quality_mask q)]))).
Proof.
  rewrite (find_band_fmap (λ x, Image.mask_band x (quality_mask q))), find_band_app.
  rewrite !find_band_replace_gen.
  rewrite (find_band_fmap (λ x, Image.mask_band x (quality_mask q))), find_band_app.
  assert (Hin : "LST_Day_1km" ∈ (Image.bands image).*1)
    by (eapply find_band_Some_elem; eauto).
  destruct (decide (name = "LST_Day_1km")) as [->|Hne].
  - rewrite decide_True by exact Hin.
    rewrite decide_True.
    + cbn [fmap option_fmap option_map]. f_equal.
      now rewrite sample_scaled_masked, sample_masked_scaled.
    + rewrite <- list_fmap_compose, fmap_app. apply elem_of_app. now left.
  - reflexivity.
Qed.

End Compose.

(** X6.  Scaling and masking can be swapped: on an image with the band
    [LST_Day_1km], an integer band [QC_Day] and no band [qaMask], both orders
    are accepted and give the same band names, the same metadata and the same
    sample of every band at every pixel. *)
Theorem scale_mask_commute (image : Image.t) (d : Image.BandData)
    (q : Image.Pixel → option Z) :
  Image.find_band "LST_Day_1km" (Image.bands image) = Some d →
  Image.find_band "QC_Day" (Image.bands image) = Some (Image.IntBand q) →
  "qaMask" ∉ Image.bandNames image →
  ∃ a b,
    scaleModisLst image ≫= maskModisLst = Some a
    ∧ maskModisLst image ≫= scaleModisLst = Some b
    ∧ Image.bandNames a = Image.bandNames b
    ∧ Image.properties a = Image.properties b
    ∧ ∀ name p, Image.value_at a name p = Image.value_at b name p.
Proof.
  intros Hlst Hqc Hfresh. do 2 eexists.
  split; [exact (scale_then_mask image d q Hlst Hqc Hfresh)|].
  split; [exact (mask_then_scale image d q Hlst Hqc Hfresh)|].
  split.
  { unfold Image.bandNames. cbn [Image.bands].
    rewrite replace_names, <- !list_fmap_compose, !fmap_app.
    f_equal. apply replace_names. }
  split; [reflexivity|].
  intros name p. unfold Image.value_at. cbn [Image.bands].
  now apply commute_values.
Qed.

Lemma scale_mask_commute_witness :
  ∃ a b,
    scaleModisLst granule_apr07 ≫= maskModisLst = Some a
    ∧ maskModisLst granule_apr07 ≫= scaleModisLst = Some b
    ∧ Image.bandNames a = Image.bandNames b
    ∧ Image.properties a = Image.properties b
    ∧ ∀ name p, Image.value_at a name p = Image.value_at b name p.
Proof.
  apply (scale_mask_commute granule_apr07
           (Image.IntBand (λ p, Some (15000 + p.1))) (λ p, Some p.2)).
  - reflexivity.
  - reflexivity.
  - eapply (@bool_decide_unpack _ (not_dec _)). vm_compute. exact I.
Defined.

(** X7.  The three transforms in the order of the script (lines 66-70), on
    an image with the band [LST_Day_1km], an integer band [QC_Day], a time
    stamp and no band [qaMask] or [millis]: the image is accepted; its bands
    are the input's, then [qaMask], then [millis]; the metadata is kept; the
    temperature is the scaled value where the quality conditions hold and is
    masked elsewhere; and the time band is valid at every pixel, also where
    the temperature is masked. *)
Theorem pipeline_image (image : Image.t) (d : Image.BandData)
    (q : Image.Pixel → option Z) (ts : Number.t) :
  Image.find_band "LST_Day_1km" (Image.bands image) = Some d →
  Image.find_band "QC_Day" (Image.bands image) = Some (Image.IntBand q) →
  Image.getNumber image "system:time_start" = Some ts →
  "qaMask" ∉ Image.bandNames image →
  "millis" ∉ Image.bandNames image →
  ∃ out,
    (scaleModisLst image ≫= maskModisLst) ≫= addVariablesTime = Some out
    ∧ Image.bandNames out = Image.bandNames image ++ ["qaMask"; "millis"]
    ∧ Image.properties out = Image.properties image
    ∧ ∀ p,
        Image.value_at out "LST_Day_1km" p
        = Some (if from_option qa_keep false (q p)
                then celsius <$> Image.sample d p
                else None)
        ∧ Image.value_at out "millis" p
          = Some (Some (Dbl (Image.round32 (Number.to_float ts)))).
Proof.
  intros Hlst Hqc Hts Hfresh Hmillis.
  rewrite (scale_then_mask image d q Hlst Hqc Hfresh). cbn [mbind option_bind].
  assert (Hnames :
    ((λ x : Image.Band, (x.1, Image.mask_band x.2 (quality_mask q)))
       <$> (((λ x : Image.Band,
                if decide (x.1 = "LST_Day_1km")
                then ("LST_Day_1km",
                      Image.band_arith Z.add PrimFloat.add (Dbl (-273.15))
                        (Image.band_arith Z.mul PrimFloat.mul (Dbl 0.02) d))
                else x) <$> Image.bands image)
              ++ [("qaMask", quality_mask q)])).*1
    = Image.bandNames image ++ ["qaMask"]).
  { rewrite <- list_fmap_compose, fmap_app. f_equal. apply replace_names. }
  rewrite (addVariablesTime_unfold _ ts); [|exact Hts|].
  2:{ unfold Image.bandNames. cbn [Image.bands]. rewrite Hnames.
      intros Hin. apply elem_of_app in Hin as [Hin|Hin]; [now apply Hmillis|].
      apply list_elem_of_singleton in Hin. discriminate. }
  eexists. split; [reflexivity|]. split.
  { unfold Image.bandNames at 1. cbn [Image.bands]. rewrite fmap_app, Hnames.
    now rewrite <- app_assoc. }
  split; [reflexivity|].
  intros p. unfold Image.value_at. cbn [Image.bands]. split.
  - rewrite find_band_app.
    rewrite (find_band_fmap (λ x, Image.mask_band x (quality_mask q))), find_band_app.
    rewrite find_band_replace by (eapply find_band_Some_elem; eauto).
    rewrite decide_True by reflexivity.
    cbn [fmap option_fmap option_map]. f_equal.
    apply (sample_scaled_masked d q).
  - rewrite find_band_app, find_band_None; [|now rewrite Hnames; intros Hin;
      apply elem_of_app in Hin as [Hin|Hin];
      [apply Hmillis | apply list_elem_of_singleton in Hin; discriminate]].
    cbn [Image.find_band]. rewrite decide_True by reflexivity.
    cbn [fmap option_fmap option_map]. f_equal. apply sample_millis_band.
Qed.

Lemma pipeline_image_witness :
  ∃ out,
    (scaleModisLst granule_apr15 ≫= maskModisLst) ≫= addVariablesTime = Some out
    ∧ Image.value_at out "LST_Day_1km" (0, 0) = Some None
    ∧ Image.value_at out "millis" (0, 0)
      = Some (Some (Dbl (Image.round32 (Number.to_float (Int 1523750400000))))).
Proof.
  destruct (pipeline_image granule_apr15
              (Image.IntBand (λ p, if decide (p.1 = 0) then Some 14900 else None))
              (λ _, Some 2) (Int 1523750400000))
    as (out & Hrun & _ & _ & Hval).
  - reflexivity.
  - reflexivity.
  - reflexivity.
  - eapply (@bool_decide_unpack _ (not_dec _)). vm_compute. exact I.
  - eapply (@bool_decide_unpack _ (not_dec _)). vm_compute. exact I.
  - exists out. split; [exact Hrun|]. split.
    + exact (proj1 (Hval (0, 0))).
    + exact (proj2 (Hval (0, 0))).
Defined.

(** ** Masking twice *)

Section MaskTwice.

Lemma requalified (q : Image.Pixel → option Z) (p : Image.Pixel) :
  from_option qa_keep false
    (if from_option Number.nonzero false (Image.sample (quality_mask q) p)
     then q p else None)
  = from_option qa_keep false (q p).
Proof.
  rewrite keep_quality_mask. destruct (q p) as [v|]; [|reflexivity].
  cbn [from_option]. now destruct (qa_keep v) eqn:Hk; cbn [from_option]; rewrite ?Hk.
Qed.

Lemma fresh_name_new (fuel k : nat) (used : list string) :
  Image.fresh_name fuel "qaMask" k used ≠ "qaMask".
Proof.
  revert k. induction fuel as [|fuel IH]; intros k; cbn [Image.fresh_name].
  - cbn [String.append]. discriminate.
  - case_decide; [apply IH|]. cbn [String.append]. discriminate.
Qed.

End MaskTwice.

(** X8.  Masking an image that is already masked changes no sample: on an
    image with an integer band [QC_Day] and no band [qaMask], a second
    [maskModisLst] is accepted, adds the new mask under another name after
    the bands of the first result, and leaves every band of the first result
    with the samples it had. *)
Theorem maskModisLst_twice (image : Image.t) (q : Image.Pixel → option Z) :
  Image.find_band "QC_Day" (Image.bands image) = Some (Image.IntBand q) →
  "qaMask" ∉ Image.bandNames image →
  ∃ once twice n,
    maskModisLst image = Some once
    ∧ maskModisLst once = Some twice
    ∧ Image.bandNames twice = Image.bandNames once ++ [n]
    ∧ n ≠ "qaMask"
    ∧ ∀ name d p,
        Image.find_band name (Image.bands once) = Some d →
        Image.value_at twice name p = Some (Image.sample d p).
Proof.
  intros Hqc Hfresh.
  set (M := quality_mask q).
  set (once := Image.mk
     ((λ x : Image.Band, (x.1, Image.mask_band x.2 M))
        <$> (Image.bands image ++ [("qaMask", M)]))
     (Image.properties image)).
  set (q' := λ p, if from_option Number.nonzero false (Image.sample M p)
                  then q p else None).
  assert (Hqc' : Image.find_band "QC_Day" (Image.bands once) = Some (Image.IntBand q')).
  { unfold once. cbn [Image.bands].
    rewrite (find_band_fmap (λ x, Image.mask_band x M)), find_band_app, Hqc.
    reflexivity. }
  assert (Hin : "qaMask" ∈ (Image.bands once).*1).
  { unfold once. cbn [Image.bands]. rewrite <- list_fmap_compose, fmap_app.
    apply elem_of_app. right. left. }
  pose proof (maskModisLst_general once q' Hqc') as Htwice.
  unfold Image.add_band in Htwice. rewrite decide_True in Htwice by exact Hin.
  cbn [fst snd] in Htwice.
  set (n := Image.fresh_name (length (Image.bands once)) "qaMask" 1 (Image.bands once).*1)
    in Htwice.
  eexists once, _, n.
  split; [exact (maskModisLst_unfold _ _ Hqc Hfresh)|].
  split; [exact Htwice|].
  split.
  { unfold Image.bandNames at 1. cbn [Image.bands].
    now rewrite <- list_fmap_compose, fmap_app. }
  split; [apply fresh_name_new|].
  intros name d p Hd. unfold Image.value_at. cbn [Image.bands].
  rewrite (find_band_fmap (λ x, Image.mask_band x (quality_mask q'))), find_band_app, Hd.
  cbn [fmap option_fmap option_map]. f_equal.
  rewrite sample_mask_band, keep_quality_mask.
  change (q' p) with
    (if from_option Number.nonzero false (Image.sample (quality_mask q) p)
     then q p else None).
  rewrite requalified.
  destruct (from_option qa_keep false (q p)) eqn:Hkeep; [reflexivity|].
  unfold once in Hd. cbn [Image.bands] in Hd.
  rewrite (find_band_fmap (λ x, Image.mask_band x M)) in Hd.
  destruct (Image.find_band name _) as [d0|]; [|discriminate].
  injection Hd as <-. unfold M. now rewrite sample_mask_band, keep_quality_mask, Hkeep.
Qed.

Lemma maskModisLst_twice_witness :
  ∃ once twice n,
    maskModisLst granule_apr07 = Some once
    ∧ maskModisLst once = Some twice
    ∧ Image.bandNames twice = Image.bandNames once ++ [n]
    ∧ n ≠ "qaMask"
    ∧ ∀ name d p,
        Image.find_band name (Image.bands once) = Some d →
        Image.value_at twice name p = Some (Image.sample d p).
Proof.
  apply (maskModisLst_twice granule_apr07 (λ p, Some p.2)).
  - reflexivity.
  - eapply (@bool_decide_unpack _ (not_dec _)). vm_compute. exact I.
Defined.

(** ** The collections of the script *)

Section Collections.

Lemma time_start_properties (x y : Image.t) :
  Image.properties y = Image.properties x →
  ImageCollection.time_start y = ImageCollection.time_start x.
Proof.
  intros Hp. unfold ImageCollection.time_start, Image.getNumber. now rewrite Hp.
Qed.

Lemma scaleModisLst_properties (x y : Image.t) :
  scaleModisLst x = Some y → Image.properties y = Image.properties x.
Proof.
  destruct (Image.find_band "LST_Day_1km" (Image.bands x)) as [d|] eqn:Hf.
  - rewrite (scaleModisLst_unfold _ _ Hf). now intros [= <-].
  - now rewrite (scaleModisLst_missing _ Hf).
Qed.

Lemma maskModisLst_properties (x y : Image.t) :
  maskModisLst x = Some y → Image.properties y = Image.properties x.
Proof.
  destruct (Image.find_band "QC_Day" (Image.bands x)) as [[q|g]|] eqn:Hf.
  - rewrite (maskModisLst_general _ _ Hf). now intros [= <-].
  - now rewrite (maskModisLst_double _ _ Hf).
  - now rewrite (maskModisLst_missing _ Hf).
Qed.

Lemma addVariablesTime_properties (x y : Image.t) :
  addVariablesTime x = Some y → Image.properties y = Image.properties x.
Proof.
  destruct (Image.getNumber x "system:time_start") as [ts|] eqn:Hts.
  - rewrite (addVariablesTime_general _ _ Hts). now intros [= <-].
  - now rewrite (addVariablesTime_missing _ Hts).
Qed.

Lemma select_properties (x y : Image.t) (names : list string) :
  Image.select x names = Some y →
  Image.properties y = Image.properties x ∧ Image.bandNames y = names.
Proof.
  unfold Image.select. intros Hsel.
  destruct (mapM _ names) as [bs|] eqn:Hbs; [|discriminate].
  injection Hsel as <-. split; [reflexivity|].
  unfold Image.bandNames. cbn [Image.bands].
  apply mapM_Some in Hbs. clear -Hbs.
  induction Hbs as [|n b names bs Hb Hrest IH]; [reflexivity|].
  csimpl. rewrite IH. f_equal.
  destruct (Image.find_band n (Image.bands x)); [|discriminate].
  now injection Hb as <-.
Qed.

Lemma map_keeps (f : Image.t → option Image.t) (P : Image.t → Prop)
    (c c' : list Image.t) :
  (∀ x y, f x = Some y → P x → P y) →
  mapM f c = Some c' →
  Forall P c → Forall P c'.
Proof.
  intros Hstep Hmap. apply mapM_Some in Hmap.
  induction Hmap as [|x y c c' Hxy Hrest IH]; [constructor|].
  intros Hall. inversion Hall as [|? ? Hx Hc]; subst.
  constructor; [now apply (Hstep x)|now apply IH].
Qed.

Lemma acquired_in_properties (start stop : Z) (x y : Image.t) :
  Image.properties y = Image.properties x →
  acquired_in start stop x → acquired_in start stop y.
Proof.
  intros Hp (ts & Hts & Hr). exists ts.
  now rewrite (time_start_properties _ _ Hp).
Qed.

Lemma filterDate_acquired (c : list Image.t) (start stop : Date.t) :
  Forall (acquired_in start stop) (ImageCollection.filterDate c start stop).
Proof.
  apply Forall_forall. intros img Hin.
  apply filterDate_spec in Hin as [_ Hts]. exact Hts.
Qed.

End Collections.

(** X9.  The first collection of the script (lines 66-70) holds only
    images acquired from 2018-04-01 on and before 2021-09-30: the end date is
    excluded, so a granule that starts on 30 September 2021 is left out.  The
    transforms keep the time stamp the filter read. *)
Theorem modisLST_dates `{Platform} (collection : list Image.t) :
  modisLST = Some collection →
  Forall (acquired_in (Date.fromYMD 2018 4 1) (Date.fromYMD 2021 9 30)) collection.
Proof.
  unfold modisLST. cbn [mbind option_bind].
  change (Date.parse start_date) with (Some (Date.fromYMD 2018 4 1)).
  change (Date.parse end_date) with (Some (Date.fromYMD 2021 9 30)).
  cbn [mbind option_bind]. unfold ImageCollection.map.
  set (source := ImageCollection.filterDate _ _ _).
  pose proof (filterDate_acquired
                (ImageCollection.filterBounds modisLST_dataset roi)
                (Date.fromYMD 2018 4 1) (Date.fromYMD 2021 9 30)) as Hsource.
  fold source in Hsource. clearbody source.
  destruct (mapM scaleModisLst source) as [scaled|] eqn:Hscaled; [|discriminate].
  cbn [mbind option_bind].
  destruct (mapM maskModisLst scaled) as [masked|] eqn:Hmasked; [|discriminate].
  cbn [mbind option_bind]. intros Hstamped.
  eapply (map_keeps addVariablesTime); [|exact Hstamped|].
  { intros x y Hxy. apply acquired_in_properties.
    now apply addVariablesTime_properties. }
  eapply (map_keeps maskModisLst); [|exact Hmasked|].
  { intros x y Hxy. apply acquired_in_properties.
    now apply maskModisLst_properties. }
  eapply (map_keeps scaleModisLst); [|exact Hscaled|exact Hsource].
  intros x y Hxy. apply acquired_in_properties.
  now apply scaleModisLst_properties.
Qed.

Lemma v2_collection_shape `{Platform} (collection : list Image.t) :
  modisLST_v2 = Some collection →
  Forall
    (λ img,
       Image.bandNames img = ["LST_Day_1km"]
       ∧ acquired_in (Date.fromYMD 2018 1 1) (Date.fromYMD 2022 1 1) img)
    collection.
Proof.
  unfold modisLST_v2, ImageCollection.map, ImageCollection.select.
  set (source := ImageCollection.filterDate _ _ _).
  pose proof (filterDate_acquired
                (ImageCollection.filterBounds (catalog "MODIS/061/MOD11A2") roi)
                (Date.fromYMD year 1 1) (Date.fromYMD (year + n_year) 1 1)) as Hsource.
  fold source in Hsource. clearbody source.
  destruct (mapM scaleModisLst source) as [scaled|] eqn:Hscaled; [|discriminate].
  cbn [mbind option_bind].
  destruct (mapM maskModisLst scaled) as [masked|] eqn:Hmasked; [|discriminate].
  cbn [mbind option_bind]. intros Hselected.
  assert (Hmasked' :
    Forall (acquired_in (Date.fromYMD 2018 1 1) (Date.fromYMD 2022 1 1)) masked).
  { eapply (map_keeps maskModisLst); [|exact Hmasked|].
    { intros x y Hxy. apply acquired_in_properties.
      now apply maskModisLst_properties. }
    eapply (map_keeps scaleModisLst); [|exact Hscaled|exact Hsource].
    intros x y Hxy. apply acquired_in_properties.
    now apply scaleModisLst_properties. }
  apply mapM_Some in Hselected. clear -Hselected Hmasked'.
  induction Hselected as [|x y masked collection Hxy Hrest IH]; [constructor|].
  inversion Hmasked' as [|? ? Hx Hc]; subst.
  destruct (select_properties _ _ _ Hxy) as [Hp Hn].
  constructor; [|now apply IH].
  split; [exact Hn|]. now apply (acquired_in_properties _ _ x).
Qed.

(** X10.  The collection of the second part of the script (lines 184-188)
    holds only images with the single band [LST_Day_1km], acquired from
    2018-01-01 on and before 2022-01-01. *)
Theorem modisLST_v2_shape `{Platform} (collection : list Image.t) :
  modisLST_v2 = Some collection →
  Forall
    (λ img,
       Image.bandNames img = ["LST_Day_1km"]
       ∧ acquired_in (Date.fromYMD 2018 1 1) (Date.fromYMD 2022 1 1) img)
    collection.
Proof. apply v2_collection_shape. Qed.

Lemma modisLST_dates_witness :
  ∃ collection,
    @modisLST sample_platform = Some collection
    ∧ Forall (acquired_in (Date.fromYMD 2018 4 1) (Date.fromYMD 2021 9 30)) collection.
Proof.
  destruct (@modisLST sample_platform) as [collection|] eqn:Hcollection; [|discriminate].
  exists collection. split; [reflexivity|].
  exact (@modisLST_dates sample_platform collection Hcollection).
Defined.

Lemma modisLST_v2_shape_witness :
  ∃ collection,
    @modisLST_v2 sample_platform = Some collection
    ∧ Forall
        (λ img,
           Image.bandNames img = ["LST_Day_1km"]
           ∧ acquired_in (Date.fromYMD 2018 1 1) (Date.fromYMD 2022 1 1) img)
        collection.
Proof.
  destruct (@modisLST_v2 sample_platform) as [collection|] eqn:Hcollection; [|discriminate].
  exists collection. split; [reflexivity|].
  exact (@modisLST_v2_shape sample_platform collection Hcollection).
Defined.

(** ** Months with and without granules *)

Section MonthBands.

Lemma samples_nil (c : list Image.t) (name : string) (p : Image.Pixel) :
  ImageCollection.samples c name p = []
  ↔ ∀ x, x ∈ c → mjoin (Image.value_at x name p) = None.
Proof.
  unfold ImageCollection.samples. induction c as [|x c IH]; csimpl.
  - split; [intros _ x Hx; inversion Hx | reflexivity].
  - destruct (mjoin (Image.value_at x name p)) as [v|] eqn:Hv; csimpl.
    + split; [discriminate|]. intros Hall.
      specialize (Hall x ltac:(left)). congruence.
    + rewrite IH. split.
      * intros Hall y Hy. apply elem_of_cons in Hy as [->|Hy]; auto.
      * intros Hall y Hy. apply Hall. now right.
Qed.

Lemma single_band_value (x : Image.t) (name : string) (p : Image.Pixel) :
  Image.bandNames x = [name] →
  (mjoin (Image.value_at x name p) = None ↔ Image.value_at x name p = Some None).
Proof.
  unfold Image.bandNames, Image.value_at.
  destruct (Image.bands x) as [|[n d] [|b bs]]; try discriminate.
  intros [= ->]. cbn [Image.find_band]. rewrite decide_True by reflexivity.
  cbn. destruct (Image.sample d p); split; congruence.
Qed.

Lemma median_bands `{Platform} (c : list Image.t) :
  Image.bandNames (ImageCollection.median c)
  = from_option Image.bandNames [] (head c).
Proof.
  unfold ImageCollection.median, Image.bandNames. cbn [Image.bands].
  rewrite <- list_fmap_compose. apply list_fmap_id.
Qed.

Lemma median_value `{Platform} (c : list Image.t) (name : string) (p : Image.Pixel) :
  from_option Image.bandNames [] (head c) = [name] →
  Image.value_at (ImageCollection.median c) name p
  = Some match ImageCollection.samples c name p with
         | [] => None
         | vs => Some (Dbl (median_of (Number.to_float <$> vs)))
         end.
Proof.
  intros Hnames. unfold ImageCollection.median, Image.value_at.
  cbn [Image.bands]. rewrite Hnames. cbn [fmap list_fmap Image.find_band].
  rewrite decide_True by reflexivity. cbn.
  now destruct (ImageCollection.samples c name p).
Qed.

End MonthBands.

(** ** The monthly composites *)

Section Monthly.

Lemma add_band_find (name : string) (bs : list Image.Band) (b : Image.Band) (d : Image.BandData) :
  Image.find_band name bs = Some d →
  Image.find_band name (Image.add_band false bs b) = Some d.
Proof.
  intros Hf. unfold Image.add_band. case_decide; now rewrite find_band_app, Hf.
Qed.

Lemma scaled_masked_selected (x y m z : Image.t) :
  scaleModisLst x = Some y →
  maskModisLst y = Some m →
  Image.select m ["LST_Day_1km"] = Some z →
  scaled_and_masked x z.
Proof.
  intros Hscale Hmask Hsel.
  destruct (Image.find_band "LST_Day_1km" (Image.bands x)) as [d|] eqn:Hd;
    [|now rewrite (scaleModisLst_missing x Hd) in Hscale].
  rewrite (scaleModisLst_unfold x d Hd) in Hscale. injection Hscale as <-.
  set (scaled := Image.band_arith Z.add PrimFloat.add (Dbl (-273.15))
                   (Image.band_arith Z.mul PrimFloat.mul (Dbl 0.02) d)) in *.
  set (y := Image.mk _ (Image.properties x)) in *.
  assert (Hin : "LST_Day_1km" ∈ (Image.bands x).*1)
    by (eapply find_band_Some_elem; eauto).
  assert (Hqc : Image.find_band "QC_Day" (Image.bands y)
                = Image.find_band "QC_Day" (Image.bands x)).
  { subst y. cbn [Image.bands]. rewrite find_band_replace by exact Hin.
    now rewrite decide_False by discriminate. }
  assert (Hlst : Image.find_band "LST_Day_1km" (Image.bands y) = Some scaled).
  { subst y. cbn [Image.bands]. rewrite find_band_replace by exact Hin.
    now rewrite decide_True by reflexivity. }
  destruct (Image.find_band "QC_Day" (Image.bands x)) as [[q|f]|] eqn:Hq.
  - rewrite (maskModisLst_general y q Hqc) in Hmask. injection Hmask as <-.
    assert (Hfound :
      Image.find_band "LST_Day_1km"
        ((λ b : Image.Band, (b.1, Image.mask_band b.2 (quality_mask q)))
           <$> Image.add_band false (Image.bands y) ("qaMask", quality_mask q))
      = Some (Image.mask_band scaled (quality_mask q))).
    { rewrite (find_band_fmap (λ b, Image.mask_band b (quality_mask q))).
      now rewrite (add_band_find _ _ _ _ Hlst). }
    set (m := Image.mk _ _) in Hsel.
    rewrite (select_one m _ _ Hfound) in Hsel. injection Hsel as <-.
    split; [reflexivity|]. split; [reflexivity|].
    exists d, q. split; [exact Hd|]. split; [exact Hq|].
    intros p. unfold Image.value_at. cbn [Image.bands Image.find_band].
    rewrite decide_True by reflexivity. cbn [fmap option_fmap option_map]. f_equal.
    rewrite sample_mask_band, keep_quality_mask. subst scaled.
    now rewrite scale_band_sample.
  - now rewrite (maskModisLst_double y f Hqc) in Hmask.
  - now rewrite (maskModisLst_missing y Hqc) in Hmask.
Qed.

Lemma v2_scaled_and_masked `{Platform} (collection : list Image.t) :
  modisLST_v2 = Some collection →
  Forall2 scaled_and_masked
    (ImageCollection.filterDate
       (ImageCollection.filterBounds (catalog "MODIS/061/MOD11A2") roi)
       (Date.fromYMD 2018 1 1) (Date.fromYMD 2022 1 1))
    collection.
Proof.
  unfold modisLST_v2, ImageCollection.map, ImageCollection.select.
  change (Date.fromYMD year 1 1) with (Date.fromYMD 2018 1 1).
  change (Date.fromYMD (year + n_year) 1 1) with (Date.fromYMD 2022 1 1).
  set (source := ImageCollection.filterDate _ _ _). clearbody source.
  destruct (mapM scaleModisLst source) as [scaled|] eqn:Hscaled; [|discriminate].
  cbn [mbind option_bind].
  destruct (mapM maskModisLst scaled) as [masked|] eqn:Hmasked; [|discriminate].
  cbn [mbind option_bind]. intros Hselected.
  apply mapM_Some in Hscaled, Hmasked, Hselected.
  revert masked collection Hmasked Hselected.
  induction Hscaled as [|x y source scaled Hxy Hrest IH]; intros masked collection Hmasked Hselected.
  - inversion Hmasked; subst. inversion Hselected; subst. constructor.
  - inversion Hmasked as [|? m ? masked' Hym Hmasked']; subst.
    inversion Hselected as [|? z ? collection' Hmz Hselected']; subst.
    constructor; [|now apply (IH masked')].
    now apply (scaled_masked_selected x y m z).
Qed.

Lemma filterDate_filter (c : list Image.t) (start stop : Date.t) :
  ImageCollection.filterDate c start stop = filter (acquired_in start stop) c.
Proof.
  unfold ImageCollection.filterDate. apply list_filter_iff. intros img.
  unfold ImageCollection.in_range, acquired_in, Date.millis.
  destruct (ImageCollection.time_start img) as [ts|].
  - rewrite andb_true_iff, Z.leb_le, Z.ltb_lt. split.
    + intros Hin. now exists ts.
    + now intros (t & [= <-] & Hin).
  - split; [discriminate|]. now intros (t & Ht & _).
Qed.

Lemma month_values_samples (c : list Image.t) (n : Z) (p : Image.Pixel) :
  month_values c n p
  = Number.to_float <$> ImageCollection.samples (month_images c n) "LST_Day_1km" p.
Proof.
  unfold month_values, ImageCollection.samples.
  induction (month_images c n) as [|x l IH]; [reflexivity|].
  csimpl. destruct (mjoin (Image.value_at x "LST_Day_1km" p)); csimpl; now rewrite IH.
Qed.

Lemma month_composite `{Platform} (collection : list Image.t) (n : Z) :
  Forall (λ img, Image.bandNames img = ["LST_Day_1km"]) collection →
  (month_images collection n = [] → Image.bands (month_median collection n) = [])
  ∧ (month_images collection n ≠ [] →
     Image.bandNames (month_median collection n) = ["LST_Day_1km"]
     ∧ ∀ p, Image.value_at (month_median collection n) "LST_Day_1km" p
            = Some match month_values collection n p with
                   | [] => None
                   | vs => Some (Dbl (median_of vs))
                   end).
Proof.
  intros Hshape.
  assert (Hmonth : Forall (λ img, Image.bandNames img = ["LST_Day_1km"])
                     (month_images collection n)).
  { apply Forall_forall. intros x Hx. apply list_elem_of_filter in Hx as [_ Hx].
    rewrite Forall_forall in Hshape. now apply Hshape. }
  assert (Hbands : Image.bands (month_median collection n)
                   = Image.bands (ImageCollection.median (month_images collection n))).
  { unfold month_median, month_images. cbn [Image.set Image.bands].
    now rewrite filterDate_filter. }
  unfold Image.bandNames, Image.value_at. rewrite Hbands.
  split.
  - intros ->. reflexivity.
  - intros Hsome.
    assert (Hhead : from_option Image.bandNames [] (head (month_images collection n))
                    = ["LST_Day_1km"]).
    { destruct (month_images collection n) as [|x rest]; [congruence|].
      cbn. now inversion Hmonth. }
    split.
    + fold (Image.bandNames (ImageCollection.median (month_images collection n))).
      now rewrite median_bands.
    + intros p.
      fold (Image.value_at (ImageCollection.median (month_images collection n))
              "LST_Day_1km" p).
      rewrite (median_value _ "LST_Day_1km" p Hhead), month_values_samples.
      now destruct (ImageCollection.samples _ _ _).
Qed.

End Monthly.

(** C5.  When the collection of the second part of the script is built,
    it is the scaled and masked collection, reduced to the band
    [LST_Day_1km]: image by image, the images of the dataset that meet the
    region of interest and are acquired from 2018-01-01 on and before
    2022-01-01, each holding the Celsius value of its raw sample where the
    quality conditions hold and masked elsewhere.  The monthly request holds
    48 images.  For [n] from 0 to 47, image [n] has [system:time_start]
    [month_start n] and is the per-pixel median of the images of the
    collection acquired in [month_start n, month_end n), the end excluded: at
    every pixel its value is the median of the valid samples of these images,
    and it is masked where there is none; it has no band when the month has
    no image.  [month_start n] is 1 January 2018 advanced by [n] months, the
    first day of calendar month [n mod 12 + 1] of year [2018 + n / 12].  Each
    month ends where the next one starts and is not empty, the first starts
    on 2018-01-01 and the last ends on 2022-01-01, so every instant from
    2018-01-01 to 2022-01-01 (excluded) falls in one month and in no
    other. *)
Theorem monthly_composites `{Platform} (collection : list Image.t) :
  modisLST_v2 = Some collection →
  ∃ months : list Image.t,
    modisLST_month = Some months
    ∧ length months = 48%nat
    ∧ Forall2 scaled_and_masked
        (filter (acquired_in (Date.fromYMD 2018 1 1) (Date.fromYMD 2022 1 1))
           (ImageCollection.filterBounds (catalog "MODIS/061/MOD11A2") roi))
        collection
    ∧ (∀ n : nat, (n < 48)%nat →
         ∃ img,
           months !! n = Some img
           ∧ Image.getNumber img "system:time_start" = Some (Int (month_start (Z.of_nat n)))
           ∧ (month_images collection (Z.of_nat n) = [] → Image.bands img = [])
           ∧ (month_images collection (Z.of_nat n) ≠ [] →
              Image.bandNames img = ["LST_Day_1km"]
              ∧ ∀ p, Image.value_at img "LST_Day_1km" p
                     = Some match month_values collection (Z.of_nat n) p with
                            | [] => None
                            | vs => Some (Dbl (median_of vs))
                            end))
    ∧ (∀ n : nat, (n < 48)%nat →
         month_start (Z.of_nat n)
           = Date.fromYMD (2018 + Z.of_nat n / 12) (Z.of_nat n mod 12 + 1) 1
         ∧ month_end (Z.of_nat n) = month_start (Z.of_nat n + 1)
         ∧ month_start (Z.of_nat n) < month_end (Z.of_nat n))
    ∧ month_start 0 = Date.fromYMD 2018 1 1
    ∧ month_end 47 = Date.fromYMD 2022 1 1
    ∧ (∀ ts, Date.fromYMD 2018 1 1 ≤ ts < Date.fromYMD 2022 1 1 →
         ∃ n : nat,
           (n < 48)%nat
           ∧ month_start (Z.of_nat n) ≤ ts < month_end (Z.of_nat n)
           ∧ ∀ m : nat, (m < 48)%nat →
               month_start (Z.of_nat m) ≤ ts < month_end (Z.of_nat m) → m = n).
Proof.
  intros Hcoll.
  pose proof (v2_scaled_and_masked collection Hcoll) as Hscaled.
  unfold modisLST_month. rewrite Hcoll. cbn [mbind option_bind].
  eexists. split; [reflexivity|].
  split.
  { unfold ImageCollection.fromImages.
    rewrite length_imap, length_fmap. reflexivity. }
  split; [now rewrite <- filterDate_filter|].
  split.
  { intros n Hn. unfold ImageCollection.fromImages.
    rewrite list_lookup_imap, list_lookup_fmap, sequence_lookup by exact Hn.
    cbn [fmap option_fmap option_map]. eexists. split; [reflexivity|].
    split.
    { unfold Image.getNumber, Image.set, month_median. cbn [Image.properties].
      rewrite lookup_insert_ne by discriminate.
      cbn [Image.set Image.properties]. now rewrite lookup_insert_eq. }
    change (Image.bands (Image.set ?i _ _)) with (Image.bands i).
    apply month_composite.
    clear -Hscaled. induction Hscaled as [|x z l k (Hn & _) Hrest IH]; constructor; auto. }
  split; [exact month_facts|].
  split; [reflexivity|].
  split; [reflexivity|].
  intros ts Hts.
  destruct (month_cover 48 ts) as (n & Hn & Hin); [lia | exact Hts |].
  exists n. split; [exact Hn|]. split; [exact Hin|].
  intros m Hm Hinm.
  destruct (month_facts n Hn) as (_ & Hadjn & _).
  destruct (month_facts m Hm) as (_ & Hadjm & _).
  destruct (Nat.lt_trichotomy m n) as [Hlt|[Heq|Hgt]]; [|exact Heq|].
  - destruct (decide (S m = n)) as [Hs|Hs].
    + subst n. replace (Z.of_nat (S m)) with (Z.of_nat m + 1) in Hin by lia. lia.
    + pose proof (month_start_increasing (S m) n ltac:(lia) ltac:(lia)) as Hinc.
      replace (Z.of_nat (S m)) with (Z.of_nat m + 1) in Hinc by lia. lia.
  - destruct (decide (S n = m)) as [Hs|Hs].
    + subst m. replace (Z.of_nat (S n)) with (Z.of_nat n + 1) in Hinm by lia. lia.
    + pose proof (month_start_increasing (S n) m ltac:(lia) ltac:(lia)) as Hinc.
      replace (Z.of_nat (S n)) with (Z.of_nat n + 1) in Hinc by lia. lia.
Qed.

Lemma monthly_composites_witness :
  ∃ months img,
    @modisLST_month sample_platform = Some months
    ∧ length months = 48%nat
    ∧ months !! 3%nat = Some img
    ∧ Image.getNumber img "system:time_start" = Some (Int 1522540800000)
    ∧ Image.bandNames img = ["LST_Day_1km"].
Proof.
  assert (Hcoll : @modisLST_v2 sample_platform = Some sample_v2) by reflexivity.
  destruct (@monthly_composites sample_platform sample_v2 Hcoll)
    as (months & Hrun & Hlen & _ & Himg & _).
  destruct (Himg 3%nat) as (img & Hlook & Htime & _ & Hbands); [lia|].
  exists months, img.
  split; [exact Hrun|]. split; [exact Hlen|]. split; [exact Hlook|].
  split; [exact Htime|].
  apply Hbands.
  intros Hf. apply (f_equal length) in Hf. vm_compute in Hf. discriminate.
Defined.

(** X11.  A month of the monthly request (lines 190-196) in which the
    collection has no granule gives an image without any band; a month with
    granules gives an image with the single band [LST_Day_1km], in which a
    pixel is masked exactly when it is masked in every granule of the
    month. *)
Theorem monthly_bands `{Platform} (collection months : list Image.t)
    (n : nat) (img : Image.t) :
  modisLST_v2 = Some collection →
  modisLST_month = Some months →
  months !! n = Some img →
  let month :=
    ImageCollection.filterDate collection
      (month_start (Z.of_nat n)) (month_end (Z.of_nat n)) in
  (month = [] → Image.bands img = [])
  ∧ (month ≠ [] →
     Image.bandNames img = ["LST_Day_1km"]
     ∧ ∀ p,
         Image.value_at img "LST_Day_1km" p = Some None
         ↔ ∀ x, x ∈ month → Image.value_at x "LST_Day_1km" p = Some None).
Proof.
  intros Hcoll Hmonths Hn month.
  pose proof (v2_collection_shape collection Hcoll) as Hshape.
  assert (Hlist : months
    = ImageCollection.fromImages
        (month_median collection <$> sequence 0 (n_year * 12 - 1) 1)).
  { unfold modisLST_month in Hmonths. rewrite Hcoll in Hmonths.
    cbn [mbind option_bind] in Hmonths. congruence. }
  clear Hmonths. subst months.
  assert (Hlt : (n < 48)%nat).
  { apply lookup_lt_Some in Hn.
    unfold ImageCollection.fromImages in Hn.
    rewrite length_imap, length_fmap in Hn. exact Hn. }
  unfold ImageCollection.fromImages in Hn.
  rewrite list_lookup_imap, list_lookup_fmap, sequence_lookup in Hn by exact Hlt.
  cbn [fmap option_fmap option_map] in Hn. injection Hn as <-.
  unfold month_median. cbn [Image.set Image.bands]. fold month.
  assert (Hmonth : Forall (λ x, Image.bandNames x = ["LST_Day_1km"]) month).
  { apply Forall_forall. intros x Hx.
    apply filterDate_spec in Hx as [Hx _].
    rewrite Forall_forall in Hshape. now apply Hshape. }
  split.
  - intros Hempty. rewrite Hempty. reflexivity.
  - intros Hsome.
    assert (Hhead : from_option Image.bandNames [] (head month) = ["LST_Day_1km"]).
    { destruct month as [|x rest]; [congruence|].
      cbn. now inversion Hmonth. }
    split.
    + change (Image.bandNames (ImageCollection.median month) = ["LST_Day_1km"]).
      now rewrite median_bands.
    + intros p.
      change (Image.value_at (ImageCollection.median month) "LST_Day_1km" p = Some None
              ↔ ∀ x, x ∈ month → Image.value_at x "LST_Day_1km" p = Some None).
      rewrite (median_value month "LST_Day_1km" p Hhead).
      pose proof (samples_nil month "LST_Day_1km" p) as Hnil.
      rewrite Forall_forall in Hmonth.
      destruct (ImageCollection.samples month "LST_Day_1km" p) as [|v vs].
      * split; [|reflexivity]. intros _ x Hx.
        apply single_band_value; [now apply Hmonth|].
        now apply (proj1 Hnil).
      * split; [discriminate|]. intros Hall.
        assert (v :: vs = []) as Habs; [|discriminate].
        apply Hnil. intros x Hx.
        apply single_band_value; [now apply Hmonth|now apply Hall].
Qed.

Lemma monthly_bands_witness :
  ∃ months january april,
    @modisLST_month sample_platform = Some months
    ∧ months !! 0%nat = Some january
    ∧ Image.bands january = []
    ∧ months !! 3%nat = Some april
    ∧ Image.bandNames april = ["LST_Day_1km"].
Proof.
  assert (Hcoll : @modisLST_v2 sample_platform = Some sample_v2) by reflexivity.
  destruct (@modisLST_month sample_platform) as [months|] eqn:Hmonths; [|discriminate].
  destruct (months !! 0%nat) as [january|] eqn:Hjan;
    [|exfalso; revert Hjan; unfold modisLST_month in Hmonths;
       rewrite Hcoll in Hmonths; injection Hmonths as <-; discriminate].
  destruct (months !! 3%nat) as [april|] eqn:Hapr;
    [|exfalso; revert Hapr; unfold modisLST_month in Hmonths;
       rewrite Hcoll in Hmonths; injection Hmonths as <-; discriminate].
  exists months, january, april.
  split; [reflexivity|]. split; [exact Hjan|]. split.
  - apply (@monthly_bands sample_platform sample_v2 months 0%nat january Hcoll Hmonths Hjan).
    vm_compute. reflexivity.
  - split; [exact Hapr|].
    apply (@monthly_bands sample_platform sample_v2 months 3%nat april Hcoll Hmonths Hapr).
    intros Hf. apply (f_equal length) in Hf. vm_compute in Hf. discriminate.
Defined.

(** ** Scaling keeps the order of the raw values *)

Section Increasing.

Lemma all_steps_ok : dn_steps_ok (Z.to_nat 65535) 0 = true.
Proof. vm_compute. reflexivity. Qed.

Lemma dn_steps_step (count : nat) (dn : Z) (i : nat) :
  dn_steps_ok count dn = true →
  (i < count)%nat →
  PrimFloat.ltb (celsius_value (dn + Z.of_nat i)) (celsius_value (dn + Z.of_nat i + 1))
  = true.
Proof.
  revert dn i. induction count as [|count IH]; intros dn i Hok Hi; [lia|].
  cbn [dn_steps_ok] in Hok. apply andb_true_iff in Hok as [Hhere Hrest].
  destruct i as [|i].
  - now rewrite Z.add_0_r.
  - specialize (IH (dn + 1) i Hrest ltac:(lia)).
    now replace (dn + Z.of_nat (S i)) with (dn + 1 + Z.of_nat i) by lia.
Qed.

Lemma dn_step (a : Z) :
  0 ≤ a < 65535 →
  PrimFloat.ltb (celsius_value a) (celsius_value (a + 1)) = true.
Proof.
  intros Ha.
  pose proof (dn_steps_step _ 0 (Z.to_nat a) all_steps_ok ltac:(lia)) as Hstep.
  now rewrite Z2Nat.id, Z.add_0_l in Hstep by lia.
Qed.

Lemma celsius_value_increasing (n : nat) (a : Z) :
  0 ≤ a →
  a + Z.of_nat (S n) ≤ 65535 →
  PrimFloat.ltb (celsius_value a) (celsius_value (a + Z.of_nat (S n))) = true.
Proof.
  induction n as [|n IH]; intros Ha Hb.
  - apply dn_step. lia.
  - apply (float_ltb_trans _ (celsius_value (a + Z.of_nat (S n)))).
    + apply IH; lia.
    + replace (a + Z.of_nat (S (S n))) with (a + Z.of_nat (S n) + 1) by lia.
      apply dn_step. lia.
Qed.

End Increasing.

(** X12.  Scaling keeps the order of raw 16-bit values, roundings
    included: if the raw temperature of one pixel is below that of another
    (both in [0 .. 65535]), so is the scaled one.  Hence distinct raw values
    never collapse to one scaled value. *)
Theorem scaleModisLst_increasing (image : Image.t) (raw : Image.Pixel → option Z)
    (p p' : Image.Pixel) (a b : Z) :
  Image.find_band "LST_Day_1km" (Image.bands image) = Some (Image.IntBand raw) →
  raw p = Some a →
  raw p' = Some b →
  0 ≤ a < b →
  b ≤ 65535 →
  ∃ out x y,
    scaleModisLst image = Some out
    ∧ Image.value_at out "LST_Day_1km" p = Some (Some (Dbl x))
    ∧ Image.value_at out "LST_Day_1km" p' = Some (Some (Dbl y))
    ∧ PrimFloat.ltb x y = true.
Proof.
  intros Hf Hp Hp' Hab Hb.
  exists (Image.mk
            ((λ x : Image.Band,
                if decide (x.1 = "LST_Day_1km")
                then ("LST_Day_1km",
                      Image.band_arith Z.add PrimFloat.add (Dbl (-273.15))
                        (Image.band_arith Z.mul PrimFloat.mul (Dbl 0.02) (Image.IntBand raw)))
                else x) <$> Image.bands image)
            (Image.properties image)),
    (celsius_value a), (celsius_value b).
  split; [exact (scaleModisLst_unfold _ _ Hf)|].
  assert (Hval : ∀ r v, raw r = Some v →
    Image.value_at
      (Image.mk
         ((λ x : Image.Band,
             if decide (x.1 = "LST_Day_1km")
             then ("LST_Day_1km",
                   Image.band_arith Z.add PrimFloat.add (Dbl (-273.15))
                     (Image.band_arith Z.mul PrimFloat.mul (Dbl 0.02) (Image.IntBand raw)))
             else x) <$> Image.bands image)
         (Image.properties image)) "LST_Day_1km" r
    = Some (Some (Dbl (celsius_value v)))).
  { intros r v Hr. unfold Image.value_at. cbn [Image.bands].
    rewrite find_band_replace by (eapply find_band_Some_elem; eauto).
    rewrite decide_True by reflexivity. cbn [fmap option_fmap option_map].
    rewrite scale_band_sample. cbn [Image.sample]. now rewrite Hr. }
  split; [now apply Hval|]. split; [now apply Hval|].
  replace b with (a + Z.of_nat (S (Z.to_nat (b - a - 1)))) by lia.
  apply celsius_value_increasing; lia.
Qed.

Lemma scaleModisLst_increasing_witness :
  ∃ out x y,
    scaleModisLst granule_apr07 = Some out
    ∧ Image.value_at out "LST_Day_1km" (0, 0) = Some (Some (Dbl x))
    ∧ Image.value_at out "LST_Day_1km" (1, 0) = Some (Some (Dbl y))
    ∧ PrimFloat.ltb x y = true.
Proof.
  apply (scaleModisLst_increasing granule_apr07 (λ p, Some (15000 + p.1))
           (0, 0) (1, 0) 15000 15001); try reflexivity; lia.
Defined.

(** ** The plotting variables *)

Section PlotVariables.

Variable difference : Date.t → Date.t → Date.unit → float.

Lemma addVariables_general (image : Image.t) (ts : Z) :
  ImageCollection.time_start image = Some ts →
  addVariables difference image
  = Some (Image.mk
            (Image.add_band false
               (prod_map id Image.band_toFloat
                  <$> Image.add_band false (Image.bands image)
                        ("t", Image.DblBand (λ _, Some (difference ts 0 Date.Year))))
               ("constant", Image.IntBand (λ _, Some 1)))
            (Image.properties image)).
Proof.
  intros Hts. unfold addVariables. rewrite Hts. cbn [mbind option_bind].
  change (Date.parse "1970-01-01") with (Some 0). cbn [mbind option_bind].
  unfold Image.rename, Image.constant. cbn [length Image.bands].
  rewrite decide_True by reflexivity. reflexivity.
Qed.

Lemma addVariables_missing (image : Image.t) :
  ImageCollection.time_start image = None →
  addVariables difference image = None.
Proof. intros Hts. unfold addVariables. now rewrite Hts. Qed.

Lemma find_band_toFloat (name : string) (bs : list Image.Band) :
  Image.find_band name (prod_map id Image.band_toFloat <$> bs)
  = Image.band_toFloat <$> Image.find_band name bs.
Proof.
  induction bs as [|[n d] bs IH]; [reflexivity|].
  csimpl. now case_decide.
Qed.

Lemma toFloat_names (bs : list Image.Band) :
  (prod_map id Image.band_toFloat <$> bs).*1 = bs.*1.
Proof. induction bs as [|[n d] bs IH]; [reflexivity|]. csimpl. now rewrite IH. Qed.

Lemma fresh_name_constant (fuel k : nat) (used : list string) :
  Image.fresh_name fuel "constant" k used ≠ "QC_Day".
Proof.
  revert k. induction fuel as [|fuel IH]; intros k; cbn [Image.fresh_name].
  - cbn [String.append]. discriminate.
  - case_decide; [apply IH|]. cbn [String.append]. discriminate.
Qed.

Lemma constant_band_name (bs : list Image.Band) (d : Image.BandData) :
  ∃ n, Image.add_band false bs ("constant", d) = bs ++ [(n, d)] ∧ n ≠ "QC_Day".
Proof.
  unfold Image.add_band. cbn [fst snd]. case_decide.
  - eexists. split; [reflexivity|]. apply fresh_name_constant.
  - exists "constant". split; [reflexivity|discriminate].
Qed.

End PlotVariables.

(** X13.  [addVariables] (lines 86-96), on an image with a time stamp and
    no band [t] or [constant]: the bands are the input's, then [t], then
    [constant]; every band of the input is cast to single precision, integer
    bands included; the band [constant], added after the cast, stays the
    integer 1; the metadata is kept. *)
Theorem addVariables_bands (difference : Date.t → Date.t → Date.unit → float)
    (image : Image.t) (ts : Z) :
  ImageCollection.time_start image = Some ts →
  "t" ∉ Image.bandNames image →
  "constant" ∉ Image.bandNames image →
  ∃ out,
    addVariables difference image = Some out
    ∧ Image.bandNames out = Image.bandNames image ++ ["t"; "constant"]
    ∧ Image.properties out = Image.properties image
    ∧ ∀ p,
        (∀ name d,
           Image.find_band name (Image.bands image) = Some d →
           Image.value_at out name p
           = Some ((λ v, Dbl (Image.round32 (Number.to_float v))) <$> Image.sample d p))
        ∧ Image.value_at out "t" p
          = Some (Some (Dbl (Image.round32 (difference ts 0 Date.Year))))
        ∧ Image.value_at out "constant" p = Some (Some (Int 1)).
Proof.
  intros Hts Ht Hconstant.
  rewrite (addVariables_general difference image ts Hts).
  unfold Image.add_band at 2. cbn [fst snd].
  rewrite decide_False by exact Ht.
  assert (Hfresh :
    "constant" ∉ (prod_map id Image.band_toFloat
       <$> (Image.bands image
              ++ [("t", Image.DblBand (λ _, Some (difference ts 0 Date.Year)))])).*1).
  { rewrite toFloat_names, fmap_app. intros Hin.
    apply elem_of_app in Hin as [Hin|Hin]; [now apply Hconstant|].
    apply list_elem_of_singleton in Hin. discriminate. }
  unfold Image.add_band. cbn [fst snd].
  rewrite decide_False by exact Hfresh.
  eexists. split; [reflexivity|]. split.
  { unfold Image.bandNames at 1. cbn [Image.bands].
    rewrite fmap_app, toFloat_names, fmap_app. now rewrite <- app_assoc. }
  split; [reflexivity|].
  intros p. unfold Image.value_at. cbn [Image.bands]. split; [|split].
  - intros name d Hd.
    rewrite find_band_app, find_band_toFloat, find_band_app, Hd.
    cbn [fmap option_fmap option_map]. f_equal.
    cbn [Image.band_toFloat Image.sample]. now destruct (Image.sample d p).
  - rewrite find_band_app, find_band_toFloat, find_band_app.
    rewrite find_band_None by exact Ht.
    cbn [Image.find_band]. rewrite decide_True by reflexivity. reflexivity.
  - rewrite find_band_app, find_band_None.
    + cbn [Image.find_band]. rewrite decide_True by reflexivity. reflexivity.
    + exact Hfresh.
Qed.

Lemma addVariables_bands_witness :
  ∃ out,
    addVariables (λ d start _, Number.of_Z ((d - start) / 31556952000)) granule_apr07
      = Some out
    ∧ Image.bandNames out = Image.bandNames granule_apr07 ++ ["t"; "constant"]
    ∧ Image.value_at out "constant" (0, 0) = Some (Some (Int 1)).
Proof.
  destruct (addVariables_bands
              (λ d start _, Number.of_Z ((d - start) / 31556952000))
              granule_apr07 1523059200000)
    as (out & Hrun & Hnames & _ & Hval).
  - reflexivity.
  - eapply (@bool_decide_unpack _ (not_dec _)). vm_compute. exact I.
  - eapply (@bool_decide_unpack _ (not_dec _)). vm_compute. exact I.
  - exists out. split; [exact Hrun|]. split; [exact Hnames|].
    exact (proj2 (proj2 (Hval (0, 0)))).
Defined.

(** X14.  The quality mask has to be taken before the plotting variables
    are added: an image that went through [addVariables] has its band
    [QC_Day] cast to single precision, and [maskModisLst] is rejected on
    it. *)
Theorem mask_after_addVariables (difference : Date.t → Date.t → Date.unit → float)
    (image out : Image.t) :
  addVariables difference image = Some out →
  maskModisLst out = None.
Proof.
  destruct (ImageCollection.time_start image) as [ts|] eqn:Hts;
    [|now rewrite (addVariables_missing difference image Hts)].
  rewrite (addVariables_general difference image ts Hts). intros [= <-].
  destruct (constant_band_name
              (prod_map id Image.band_toFloat
                 <$> Image.add_band false (Image.bands image)
                       ("t", Image.DblBand (λ _, Some (difference ts 0 Date.Year))))
              (Image.IntBand (λ _, Some 1))) as (n & -> & Hn).
  destruct (Image.find_band "QC_Day"
              (Image.add_band false (Image.bands image)
                 ("t", Image.DblBand (λ _, Some (difference ts 0 Date.Year)))))
    as [d|] eqn:Hd.
  - apply (maskModisLst_double _ (λ p, (λ v, Image.round32 (Number.to_float v)) <$> Image.sample d p)).
    cbn [Image.bands]. rewrite find_band_app, find_band_toFloat, Hd. reflexivity.
  - apply maskModisLst_missing.
    cbn [Image.bands]. rewrite find_band_app, find_band_toFloat, Hd.
    cbn [fmap option_fmap option_map Image.find_band].
    now rewrite decide_False.
Qed.

Lemma mask_after_addVariables_witness :
  ∃ out,
    addVariables (λ d start _, Number.of_Z ((d - start) / 31556952000)) granule_apr07
      = Some out
    ∧ maskModisLst out = None.
Proof.
  destruct (addVariables (λ d start _, Number.of_Z ((d - start) / 31556952000))
              granule_apr07) as [out|] eqn:Hout; [|discriminate].
  exists out. split; [reflexivity|].
  exact (mask_after_addVariables _ granule_apr07 out Hout).
Defined.
